(** * A sparse, demand-driven Python indexing engine

Shallow embedding of [src/mcp/python-lsp-mcp-server/src/parser.py] and
[src/mcp/python-lsp-mcp-server/src/engine.py], and the properties of the
indexing policy, name resolution and output shaping proved about them.

Conventions of the embedding:
- a Python [str] is the list of its code points, so that [len] counts
  characters and the ellipsis is one character;
- a Python [int] is a [Z];
- a [pathlib.Path] is the list of the components of a resolved absolute
  path, so [Path.resolve] is the identity;
- a [dict] that is only looked up and stored into is a [gmap]; a [dict]
  whose iteration order is observed is an insertion-ordered association
  list; a [set] is a [gset];
- the file system and the [ast] module are the world the engine runs in:
  a record of functions, in which reading or parsing a file may fail. *)

From Stdlib Require Import ZArith NArith Lia String Ascii.
From stdpp Require Import base option list gmap sorting.

Local Open Scope Z_scope.

(** ** Python built-ins *)

Module Py.

Abbreviation str := (list N).

(** An ASCII literal as a Python string. *)
Definition lit (s : string) : str :=
  (λ a, N_of_ascii a) <$> list_ascii_of_string s.

Definition len {A} (l : list A) : Z := Z.of_nat (length l).

(** [bool(s)] for a string or a list: non-empty. *)
Definition truthy {A} (l : list A) : bool :=
  match l with [] => false | _ => true end.

(** A slice bound as Python normalises it against the length. *)
Definition clamp (n : nat) (i : Z) : nat :=
  if i <? 0 then Z.to_nat (Z.max 0 (Z.of_nat n + i))
  else Nat.min n (Z.to_nat i).

(** [l[start:stop]], [l[:stop]] and [l[start:]]. *)
Definition slice {A} (l : list A) (start stop : Z) : list A :=
  drop (clamp (length l) start) (take (clamp (length l) stop) l).

Definition slice_to {A} (l : list A) (stop : Z) : list A :=
  take (clamp (length l) stop) l.

Definition slice_from {A} (l : list A) (start : Z) : list A :=
  drop (clamp (length l) start) l.

(** [sep.join(parts)]. *)
Fixpoint join (sep : str) (parts : list str) : str :=
  match parts with
  | [] => []
  | x :: rest =>
      match rest with
      | [] => x
      | _ :: _ => x ++ sep ++ join sep rest
      end
  end.

(** [s.split(c)] for a one-character separator: never the empty list. *)
Fixpoint split (c : N) (s : str) : list str :=
  match s with
  | [] => [[]]
  | x :: rest =>
      if N.eqb x c then [] :: split c rest
      else match split c rest with
           | h :: t => (x :: h) :: t
           | [] => [[x]]
           end
  end.

(** [s.rfind(c)]: the last index of [c], or -1. *)
Fixpoint rfind_from (c : N) (s : str) (i best : Z) : Z :=
  match s with
  | [] => best
  | x :: rest => rfind_from c rest (i + 1) (if N.eqb x c then i else best)
  end.

Definition rfind (c : N) (s : str) : Z := rfind_from c s 0 (-1).

Fixpoint startswith (s p : str) : bool :=
  match p, s with
  | [], _ => true
  | _ :: _, [] => false
  | a :: p', b :: s' => N.eqb a b && startswith s' p'
  end.

(** [sub in s]. *)
Fixpoint contains (s sub : str) : bool :=
  startswith s sub ||
  match s with
  | [] => false
  | _ :: rest => contains rest sub
  end.

(** The line boundaries of [str.splitlines]. *)
Definition linebreak (c : N) : bool :=
  bool_decide (c ∈ [10; 11; 12; 13; 28; 29; 30; 133; 8232; 8233]%N).

(** [s.splitlines()]: [acc] is the current line, reversed. *)
Fixpoint splitlines_acc (acc s : str) : list str :=
  match s with
  | [] => match acc with [] => [] | _ :: _ => [rev acc] end
  | c :: rest =>
      if N.eqb c 13 then
        match rest with
        | d :: rest' =>
            if N.eqb d 10 then rev acc :: splitlines_acc [] rest'
            else rev acc :: splitlines_acc [] rest
        | [] => rev acc :: splitlines_acc [] rest
        end
      else if linebreak c then rev acc :: splitlines_acc [] rest
      else splitlines_acc (c :: acc) rest
  end.

Definition splitlines (s : str) : list str := splitlines_acc [] s.

(** [sorted(l, key=key)]: the stable sort, as insertion from the right;
    [x] goes in front of the first element whose key is not smaller. *)
Section Sorted.
Context {A K : Type} (leb : K → K → bool) (key : A → K).

Fixpoint insert_sorted (x : A) (l : list A) : list A :=
  match l with
  | [] => [x]
  | y :: rest =>
      if leb (key x) (key y) then x :: y :: rest
      else y :: insert_sorted x rest
  end.

Fixpoint sorted (l : list A) : list A :=
  match l with
  | [] => []
  | x :: rest => insert_sorted x (sorted rest)
  end.
End Sorted.

(** Two elements in the order of their keys. *)
Definition key_le {A K : Type} (leb : K → K → bool) (key : A → K)
    (x y : A) : Prop :=
  leb (key x) (key y) = true.

(** Orders on the keys used: [int] and [Tuple[int, int]]. *)
Definition int_leb (a b : Z) : bool := a <=? b.

Definition pair_leb (a b : Z * Z) : bool :=
  (a.1 <? b.1) || ((a.1 =? b.1) && (a.2 <=? b.2)).

(** The ASCII part of [str.lower]; the engine takes the interpreter's
    [str.lower] as a parameter and this one instantiates it. *)
Definition ascii_lower (s : str) : str :=
  (λ c, if (65 <=? c)%N && (c <=? 90)%N then (c + 32)%N else c) <$> s.

End Py.

(** ** pathlib *)

Module PathLib.
Import Py.

(** The components of a resolved path below the anchor. *)
Abbreviation Path := (list str).

Definition dot : N := 46%N.

(** [p.name]: the final component, or the empty string. *)
Definition name (p : Path) : str := default [] (last p).

(** [p.suffix] and [p.stem]: the final component is cut at its last dot
    unless that dot is its first or its last character. *)
Definition suffix (p : Path) : str :=
  let n := name p in
  let i := rfind dot n in
  if (0 <? i) && (i <? len n - 1) then slice_from n i else [].

Definition stem (p : Path) : str :=
  let n := name p in
  let i := rfind dot n in
  if (0 <? i) && (i <? len n - 1) then slice_to n i else n.

(** [p.with_suffix("")]; [None] is the [ValueError] of a path with an
    empty name. *)
Definition with_suffix_empty (p : Path) : option Path :=
  let n := name p in
  if truthy n then
    let old_suffix := suffix p in
    let n' := if truthy old_suffix then slice_to n (- len old_suffix)
              else n in
    Some (removelast p ++ [n'])
  else None.

(** [p.relative_to(other)]; [None] is the [ValueError] of a path that is
    not below [other]. *)
Fixpoint relative_to (p other : Path) : option Path :=
  match other with
  | [] => Some p
  | o :: other' =>
      match p with
      | [] => None
      | c :: p' => if bool_decide (c = o) then relative_to p' other' else None
      end
  end.

End PathLib.

(** ** The [ast] module: the syntax trees the parser walks *)

Module Ast.
Import Py.

(** The node classes [parse_python_file] tells apart; every other class
    is [Other] with the child nodes [ast.iter_child_nodes] gives for it.
    [docstring] is what [ast.get_docstring(node, clean=True)] returns and
    [segment] what [ast.get_source_segment(text, node)] returns.
    [before] and [after] are the child nodes around the body (bases and
    keywords, or the arguments; the decorators and what follows). *)
#[local] Unset Elimination Schemes.
Inductive node : Type :=
| ClassDef (name : str) (lineno col_offset : Z) (docstring segment : option str)
    (before body after : list node)
| FunctionDef (is_async : bool) (name : str) (lineno col_offset : Z)
    (docstring segment : option str) (before body after : list node)
| Assign (lineno col_offset : Z) (segment : option str)
    (targets : list node) (value : node)
| AnnAssign (lineno col_offset : Z) (segment : option str)
    (target : node) (annotation : option node) (unparsed : str)
    (value : option node)
| Name (id : str) (lineno col_offset : Z)
| Other (children : list node).
#[local] Set Elimination Schemes.

(** What [ast.parse] returns: an [ast.Module]. *)
Record Module_ := { module_docstring : option str; body : list node }.

(** [ast.iter_child_nodes]; the child of a [Name] is its expression
    context. *)
Definition iter_child_nodes (n : node) : list node :=
  match n with
  | ClassDef _ _ _ _ _ before body after => before ++ body ++ after
  | FunctionDef _ _ _ _ _ _ before body after => before ++ body ++ after
  | Assign _ _ _ targets value => targets ++ [value]
  | AnnAssign _ _ _ target annotation _ value =>
      target :: option_list annotation ++ option_list value
  | Name _ _ _ => [Other []]
  | Other children => children
  end.

(** The number of nodes of a tree, the fuel of [walk]. *)
Fixpoint size (n : node) : nat :=
  let sizes := fix sizes (l : list node) : nat :=
    match l with [] => O | x :: r => (size x + sizes r)%nat end in
  let size_opt := λ o : option node,
    match o with Some x => size x | None => O end in
  match n with
  | ClassDef _ _ _ _ _ before body after =>
      S (sizes before + sizes body + sizes after)
  | FunctionDef _ _ _ _ _ _ before body after =>
      S (sizes before + sizes body + sizes after)
  | Assign _ _ _ targets value => S (sizes targets + size value)
  | AnnAssign _ _ _ target annotation _ value =>
      S (size target + size_opt annotation + size_opt value)
  | Name _ _ _ => 2
  | Other children => S (sizes children)
  end.

Definition sizes (l : list node) : nat := sum_list (size <$> l).

(** [ast.walk]: nodes leave the queue at the front and their children
    join it at the back. *)
Fixpoint walk_queue (fuel : nat) (todo : list node) : list node :=
  match fuel with
  | O => []
  | S fuel' =>
      match todo with
      | [] => []
      | n :: rest => n :: walk_queue fuel' (rest ++ iter_child_nodes n)
      end
  end.

(** The nodes [ast.walk(tree)] yields after the [Module] itself. *)
Definition walk (tree : Module_) : list node :=
  walk_queue (sizes (body tree)) (body tree).

End Ast.

(** ** An insertion-ordered [dict] *)

Module Dict.
Section Dict.
Context {K V : Type} `{EqDecision K}.

Definition t := list (K * V).

Fixpoint get (d : t) (k : K) : option V :=
  match d with
  | [] => None
  | (k', v) :: rest => if decide (k' = k) then Some v else get rest k
  end.

(** [d[k] = v]: a key that is present keeps its place. *)
Fixpoint set (d : t) (k : K) (v : V) : t :=
  match d with
  | [] => [(k, v)]
  | (k', v') :: rest =>
      if decide (k' = k) then (k, v) :: rest else (k', v') :: set rest k v
  end.

Definition keys (d : t) : list K := fst <$> d.
Definition values (d : t) : list V := snd <$> d.
Definition mem (d : t) (k : K) : bool := bool_decide (is_Some (get d k)).
End Dict.
Arguments t : clear implicits.
End Dict.

(** ** The world the engine runs in *)

Import Py PathLib.

Inductive exn : Type :=
| OSError | UnicodeDecodeError | SyntaxError | IndexError.

Inductive result (A : Type) : Type :=
| Ok (a : A)
| Err (e : exn).
Arguments Ok {A} a.
Arguments Err {A} e.

(** The file system and the interpreter's library, as the engine sees them
    during one call. [rglob_py root] lists the files [root.rglob("*.py")]
    yields, each in resolved form; [stat_size] is [None] where
    [path.stat()] raises [OSError]. A listed path need not exist: the sweep
    also yields a symbolic link whose target is gone. *)
Record World : Type := {
  rglob_py : Path → list Path;
  stat_size : Path → option Z;
  exists_ : Path → bool;
  read_text : Path → result str;
  ast_parse : str → result Ast.Module_;
  lower : str → str
}.

(** ** parser.py *)

Module SymbolDefinition.
Record t : Type := mk {
  parent_qualified_name : option str;
  name : str;
  kind : str;
  type_annotation : option str;
  file_path : Path;
  line : Z;
  column : Z;
  docstring : option str;
  init_docstring : option str;
  full_source : option str;
  qualified_name : str
}.
End SymbolDefinition.

Module SymbolReference.
Record t : Type := mk {
  symbol : str;
  file_path : Path;
  line : Z;
  column : Z;
  context : option str
}.
End SymbolReference.

Module OutlineNode.
#[local] Unset Elimination Schemes.
Inductive t : Type :=
| mk (symbol : SymbolDefinition.t) (children : list t).
#[local] Set Elimination Schemes.

Definition symbol (n : t) : SymbolDefinition.t :=
  match n with mk s _ => s end.
Definition children (n : t) : list t :=
  match n with mk _ c => c end.
End OutlineNode.

Module Parser.
Import Ast.

Definition _compute_module_qualified_name
    (file_path : Path) (project_root : option Path) : str :=
  match project_root with
  | Some root =>
      match relative_to file_path root with
      | Some rel =>
          match with_suffix_empty rel with
          | Some stripped => join (lit ".") stripped
          | None => stem file_path
          end
      | None => stem file_path
      end
  | None => stem file_path
  end.

Definition _extract_context_window (text : str) (line window : Z) : str :=
  let lines := splitlines text in
  let idx := Z.max 0 (line - 1) in
  let start := Z.max 0 (idx - window) in
  let end_ := Z.min (len lines) (idx + window + 1) in
  join [10%N] (slice lines start end_).

Abbreviation definitions_t := (Dict.t str SymbolDefinition.t).

(** The docstring of the first [__init__] in a class body. *)
Fixpoint find_init_docstring (body : list node) : option str :=
  match body with
  | [] => None
  | FunctionDef _ name _ _ doc _ _ _ _ :: rest =>
      if bool_decide (name = lit "__init__") then doc
      else find_init_docstring rest
  | _ :: rest => find_init_docstring rest
  end.

(** One variable definition per [Name] among the targets of an
    assignment. *)
Fixpoint walk_targets (file_path : Path) (parent_def : SymbolDefinition.t)
    (lineno col_offset : Z) (full_src : str) (targets : list node)
    (definitions : definitions_t) : list OutlineNode.t * definitions_t :=
  match targets with
  | [] => ([], definitions)
  | Name id _ _ :: rest =>
      let qualname :=
        SymbolDefinition.qualified_name parent_def ++ lit "." ++ id in
      let var_def :=
        SymbolDefinition.mk
          (Some (SymbolDefinition.qualified_name parent_def)) id
          (lit "variable") None file_path lineno col_offset None None
          (Some full_src) qualname in
      let definitions := Dict.set definitions qualname var_def in
      let '(nodes, definitions) :=
        walk_targets file_path parent_def lineno col_offset full_src rest
          definitions in
      (OutlineNode.mk var_def [] :: nodes, definitions)
  | _ :: rest =>
      walk_targets file_path parent_def lineno col_offset full_src rest
        definitions
  end.

(** [walk_body], one statement at a time. The outline nodes returned are
    the children appended to [parent_node]; [definitions] is threaded
    through in the order of the stores into the dictionary. *)
Fixpoint walk_stmt (file_path : Path) (parent_def : SymbolDefinition.t)
    (n : node) (definitions : definitions_t) {struct n}
    : list OutlineNode.t * definitions_t :=
  let walk_body :=
    fix walk_body (body : list node) (parent_def : SymbolDefinition.t)
        (definitions : definitions_t) {struct body}
        : list OutlineNode.t * definitions_t :=
      match body with
      | [] => ([], definitions)
      | stmt :: rest =>
          let '(first, definitions) :=
            walk_stmt file_path parent_def stmt definitions in
          let '(others, definitions) :=
            walk_body rest parent_def definitions in
          (first ++ others, definitions)
      end in
  let parent_qualname := SymbolDefinition.qualified_name parent_def in
  match n with
  | ClassDef name lineno col_offset doc segment _ body _ =>
      let qualname := parent_qualname ++ lit "." ++ name in
      let init_doc := find_init_docstring body in
      let full_src := default [] segment in
      let cls_def :=
        SymbolDefinition.mk (Some parent_qualname) name (lit "class") None
          file_path lineno col_offset doc init_doc (Some full_src)
          qualname in
      let definitions := Dict.set definitions qualname cls_def in
      let '(children, definitions) := walk_body body cls_def definitions in
      ([OutlineNode.mk cls_def children], definitions)
  | FunctionDef _ name lineno col_offset doc segment _ body _ =>
      let qualname := parent_qualname ++ lit "." ++ name in
      let full_src := default [] segment in
      let fn_def :=
        SymbolDefinition.mk (Some parent_qualname) name (lit "function")
          None file_path lineno col_offset doc None (Some full_src)
          qualname in
      let definitions := Dict.set definitions qualname fn_def in
      let '(children, definitions) := walk_body body fn_def definitions in
      ([OutlineNode.mk fn_def children], definitions)
  | Assign lineno col_offset segment targets _ =>
      walk_targets file_path parent_def lineno col_offset
        (default [] segment) targets definitions
  | AnnAssign lineno col_offset segment target annotation unparsed _ =>
      let full_src := default [] segment in
      let type_ann :=
        match annotation with Some _ => Some unparsed | None => None end in
      match target with
      | Name id _ _ =>
          let qualname := parent_qualname ++ lit "." ++ id in
          let var_def :=
            SymbolDefinition.mk (Some parent_qualname) id (lit "variable")
              type_ann file_path lineno col_offset None None
              (Some full_src) qualname in
          ([OutlineNode.mk var_def []], Dict.set definitions qualname var_def)
      | _ => ([], definitions)
      end
  | Name _ _ _ | Other _ => ([], definitions)
  end.

Fixpoint walk_body (file_path : Path) (body : list node)
    (parent_def : SymbolDefinition.t) (definitions : definitions_t)
    : list OutlineNode.t * definitions_t :=
  match body with
  | [] => ([], definitions)
  | stmt :: rest =>
      let '(first, definitions) :=
        walk_stmt file_path parent_def stmt definitions in
      let '(others, definitions) :=
        walk_body file_path rest parent_def definitions in
      (first ++ others, definitions)
  end.

(** One reference per [ast.Name] node that [ast.walk] yields. *)
Definition reference_of (file_path : Path) (text : str) (n : node)
    : option SymbolReference.t :=
  match n with
  | Name id lineno col_offset =>
      Some (SymbolReference.mk id file_path lineno col_offset
              (Some (_extract_context_window text lineno 1)))
  | _ => None
  end.

Definition parse_python_file (w : World) (file_path : Path)
    (project_root : option Path)
    : result (OutlineNode.t * definitions_t * list SymbolReference.t) :=
  match read_text w file_path with
  | Err e => Err e
  | Ok text =>
      match ast_parse w text with
      | Err e => Err e
      | Ok tree =>
          let module_qualname :=
            _compute_module_qualified_name file_path project_root in
          let module_def :=
            SymbolDefinition.mk None
              (default [] (last (split dot module_qualname)))
              (lit "module") None file_path 1 0 (module_docstring tree)
              None (Some text) module_qualname in
          let definitions := [(module_qualname, module_def)] in
          let '(children, definitions) :=
            walk_body file_path (body tree) module_def definitions in
          let references := omap (reference_of file_path text) (walk tree) in
          Ok (OutlineNode.mk module_def children, definitions, references)
      end
  end.

End Parser.

(** ** engine.py: the engine's state and its indexing helpers *)

Module Engine.
Import Parser.

Definition MAX_CHARS_HARD_LIMIT : Z := 1500.

Record LSPEngine : Type := mkEngine {
  project_root : Path;
  max_eager_files : Z;
  max_eager_bytes : Z;
  outline_index : gmap Path OutlineNode.t;
  symbol_index : Dict.t str SymbolDefinition.t;
  _symbols_by_simple_name : gmap str (list str);
  references : list SymbolReference.t;
  _refs_by_symbol : gmap str (list SymbolReference.t);
  _node_index : gmap str OutlineNode.t;
  _all_files : list Path;
  _file_sizes : gmap Path Z;
  _total_bytes : Z;
  _indexed_files : gset Path
}.

(** The assignments to one attribute of [self]. *)
Definition set_outline_index f (s : LSPEngine) : LSPEngine :=
  mkEngine (project_root s) (max_eager_files s) (max_eager_bytes s)
    (f (outline_index s)) (symbol_index s) (_symbols_by_simple_name s)
    (references s) (_refs_by_symbol s) (_node_index s) (_all_files s)
    (_file_sizes s) (_total_bytes s) (_indexed_files s).
Definition set_symbol_index f (s : LSPEngine) : LSPEngine :=
  mkEngine (project_root s) (max_eager_files s) (max_eager_bytes s)
    (outline_index s) (f (symbol_index s)) (_symbols_by_simple_name s)
    (references s) (_refs_by_symbol s) (_node_index s) (_all_files s)
    (_file_sizes s) (_total_bytes s) (_indexed_files s).
Definition set_symbols_by_simple_name f (s : LSPEngine) : LSPEngine :=
  mkEngine (project_root s) (max_eager_files s) (max_eager_bytes s)
    (outline_index s) (symbol_index s) (f (_symbols_by_simple_name s))
    (references s) (_refs_by_symbol s) (_node_index s) (_all_files s)
    (_file_sizes s) (_total_bytes s) (_indexed_files s).
Definition set_references f (s : LSPEngine) : LSPEngine :=
  mkEngine (project_root s) (max_eager_files s) (max_eager_bytes s)
    (outline_index s) (symbol_index s) (_symbols_by_simple_name s)
    (f (references s)) (_refs_by_symbol s) (_node_index s) (_all_files s)
    (_file_sizes s) (_total_bytes s) (_indexed_files s).
Definition set_refs_by_symbol f (s : LSPEngine) : LSPEngine :=
  mkEngine (project_root s) (max_eager_files s) (max_eager_bytes s)
    (outline_index s) (symbol_index s) (_symbols_by_simple_name s)
    (references s) (f (_refs_by_symbol s)) (_node_index s) (_all_files s)
    (_file_sizes s) (_total_bytes s) (_indexed_files s).
Definition set_node_index f (s : LSPEngine) : LSPEngine :=
  mkEngine (project_root s) (max_eager_files s) (max_eager_bytes s)
    (outline_index s) (symbol_index s) (_symbols_by_simple_name s)
    (references s) (_refs_by_symbol s) (f (_node_index s)) (_all_files s)
    (_file_sizes s) (_total_bytes s) (_indexed_files s).
Definition set_all_files f (s : LSPEngine) : LSPEngine :=
  mkEngine (project_root s) (max_eager_files s) (max_eager_bytes s)
    (outline_index s) (symbol_index s) (_symbols_by_simple_name s)
    (references s) (_refs_by_symbol s) (_node_index s) (f (_all_files s))
    (_file_sizes s) (_total_bytes s) (_indexed_files s).
Definition set_file_sizes f (s : LSPEngine) : LSPEngine :=
  mkEngine (project_root s) (max_eager_files s) (max_eager_bytes s)
    (outline_index s) (symbol_index s) (_symbols_by_simple_name s)
    (references s) (_refs_by_symbol s) (_node_index s) (_all_files s)
    (f (_file_sizes s)) (_total_bytes s) (_indexed_files s).
Definition set_total_bytes f (s : LSPEngine) : LSPEngine :=
  mkEngine (project_root s) (max_eager_files s) (max_eager_bytes s)
    (outline_index s) (symbol_index s) (_symbols_by_simple_name s)
    (references s) (_refs_by_symbol s) (_node_index s) (_all_files s)
    (_file_sizes s) (f (_total_bytes s)) (_indexed_files s).
Definition set_indexed_files f (s : LSPEngine) : LSPEngine :=
  mkEngine (project_root s) (max_eager_files s) (max_eager_bytes s)
    (outline_index s) (symbol_index s) (_symbols_by_simple_name s)
    (references s) (_refs_by_symbol s) (_node_index s) (_all_files s)
    (_file_sizes s) (_total_bytes s) (f (_indexed_files s)).

(** A call on the engine either returns a value or raises, and in both
    cases leaves the engine in some state. *)
Inductive outcome (A : Type) : Type :=
| Return (a : A) (s : LSPEngine)
| Raise (x : exn) (s : LSPEngine).
Arguments Return {A} a s.
Arguments Raise {A} x s.

Definition bind {A B} (m : outcome A) (k : A → LSPEngine → outcome B)
    : outcome B :=
  match m with
  | Return a s => k a s
  | Raise x s => Raise x s
  end.

Definition state_of {A} (m : outcome A) : LSPEngine :=
  match m with Return _ s => s | Raise _ s => s end.

(** [setdefault(k, []).append(x)]. *)
Definition setdefault_append {K V} `{Countable K}
    (k : K) (x : V) (m : gmap K (list V)) : gmap K (list V) :=
  <[k := default [] (m !! k) ++ [x]]> m.

Definition _register_definition (defn : SymbolDefinition.t)
    (self : LSPEngine) : LSPEngine :=
  let self :=
    set_symbol_index
      (λ d, Dict.set d (SymbolDefinition.qualified_name defn) defn) self in
  set_symbols_by_simple_name
    (setdefault_append (SymbolDefinition.name defn)
       (SymbolDefinition.qualified_name defn)) self.

Definition _register_reference (ref : SymbolReference.t)
    (self : LSPEngine) : LSPEngine :=
  let self := set_references (λ l, l ++ [ref]) self in
  set_refs_by_symbol
    (setdefault_append (SymbolReference.symbol ref) ref) self.

Fixpoint _register_outline_node (node : OutlineNode.t) (self : LSPEngine)
    : LSPEngine :=
  match node with
  | OutlineNode.mk symbol children =>
      let qualname := SymbolDefinition.qualified_name symbol in
      let self := set_node_index (λ m, <[qualname := node]> m) self in
      (fix each (children : list OutlineNode.t) (self : LSPEngine) :=
         match children with
         | [] => self
         | child :: rest => each rest (_register_outline_node child self)
         end) children self
  end.

Definition _index_file (w : World) (file_path : Path) (self : LSPEngine)
    : outcome unit :=
  if bool_decide (file_path ∈ _indexed_files self) then Return tt self
  else if negb (exists_ w file_path) then Return tt self
  else
    match parse_python_file w file_path (Some (project_root self)) with
    | Err x => Raise x self
    | Ok (module_node, definitions, refs) =>
        let self :=
          set_outline_index (λ m, <[file_path := module_node]> m) self in
        let self := set_indexed_files (λ s, s ∪ {[file_path]}) self in
        let self := _register_outline_node module_node self in
        let self :=
          foldl (λ s defn, _register_definition defn s) self
            (Dict.values definitions) in
        let self :=
          foldl (λ s ref, _register_reference ref s) self refs in
        Return tt self
    end.

(** [for file_path in paths: self._index_file(file_path)]. *)
Fixpoint index_each (w : World) (paths : list Path) (self : LSPEngine)
    : outcome unit :=
  match paths with
  | [] => Return tt self
  | file_path :: rest =>
      bind (_index_file w file_path self) (λ _, index_each w rest)
  end.

Definition _discover_files (w : World) (self : LSPEngine) : LSPEngine :=
  let '(total_bytes, all_files, file_sizes) :=
    foldl
      (λ '(total_bytes, all_files, file_sizes) path,
         let size := default 0 (stat_size w path) in
         (total_bytes + size, all_files ++ [path],
          <[path := size]> file_sizes))
      (0, [], (∅ : gmap Path Z)) (rglob_py w (project_root self)) in
  let self := set_all_files (λ _, all_files) self in
  let self := set_file_sizes (λ _, file_sizes) self in
  set_total_bytes (λ _, total_bytes) self.

Definition size_of (self : LSPEngine) (p : Path) : Z :=
  default 0 (_file_sizes self !! p).

(** The files [_initial_index] hands to [_index_file], in order. *)
Definition eager_files (self : LSPEngine) : list Path :=
  let files_sorted := sorted int_leb (size_of self) (_all_files self) in
  if (len (_all_files self) <=? max_eager_files self)
     && (_total_bytes self <=? max_eager_bytes self)
  then files_sorted
  else slice_to files_sorted (max_eager_files self).

Definition _initial_index (w : World) (self : LSPEngine) : outcome unit :=
  if negb (truthy (_all_files self)) then Return tt self
  else index_each w (eager_files self) self.

(** The attributes [__init__] sets before discovery. *)
Definition fresh (project_root : Path) (max_eager_files max_eager_bytes : Z)
    : LSPEngine :=
  mkEngine project_root max_eager_files max_eager_bytes ∅ [] ∅ [] ∅ ∅ [] ∅ 0 ∅.

(** [LSPEngine(project_root, max_eager_files, max_eager_bytes)]. *)
Definition init (w : World) (project_root : Path)
    (max_eager_files max_eager_bytes : Z) : outcome unit :=
  let self := fresh project_root max_eager_files max_eager_bytes in
  let self := _discover_files w self in
  _initial_index w self.

Definition _ensure_file_indexed (w : World) (path : Path)
    (self : LSPEngine) : outcome unit :=
  if bool_decide (path ∉ _indexed_files self) then
    let self :=
      if bool_decide (path ∉ _all_files self) then
        let self := set_all_files (λ l, l ++ [path]) self in
        set_file_sizes
          (λ m, <[path := default 0 (stat_size w path)]> m) self
      else self in
    _index_file w path self
  else Return tt self.

(** [symbol in self.symbol_index or symbol in self._symbols_by_simple_name]. *)
Definition resolves (self : LSPEngine) (symbol : str) : bool :=
  Dict.mem (symbol_index self) symbol
  || bool_decide (is_Some (_symbols_by_simple_name self !! symbol)).

Definition score (w : World) (self : LSPEngine) (symbol : str)
    (path : Path) : Z * Z :=
  let stem := lower w (stem path) in
  let match_ := if contains stem (lower w symbol) then 0 else 1 in
  (match_, size_of self path).

Definition remaining (self : LSPEngine) : list Path :=
  filter (λ p, p ∉ _indexed_files self) (_all_files self).

(** The loop of [_ensure_symbol_indexed]: index, then test and break. *)
Fixpoint scan (w : World) (symbol : str) (paths : list Path)
    (self : LSPEngine) : outcome unit :=
  match paths with
  | [] => Return tt self
  | path :: rest =>
      bind (_index_file w path self) (λ _ self,
        if resolves self symbol then Return tt self
        else scan w symbol rest self)
  end.

Definition scan_order (w : World) (self : LSPEngine) (symbol : str)
    : list Path :=
  sorted pair_leb (score w self symbol) (remaining self).

Definition _ensure_symbol_indexed (w : World) (symbol : str)
    (self : LSPEngine) : outcome unit :=
  if resolves self symbol then Return tt self
  else if negb (truthy (remaining self)) then Return tt self
  else scan w symbol (scan_order w self symbol) self.

(** [None] inside [Ok] is the method's [None]; [Err IndexError] is the
    subscript [[0]] on an empty list. *)
Definition _resolve_symbol_qualified_name (self : LSPEngine) (symbol : str)
    : result (option str) :=
  if Dict.mem (symbol_index self) symbol then Ok (Some symbol)
  else
    match _symbols_by_simple_name self !! symbol with
    | Some names =>
        match names with
        | first :: _ => Ok (Some first)
        | [] => Err IndexError
        end
    | None => Ok None
    end.

(** *** Responses *)

Module Short.
Record t : Type := mk {
  name : str; kind : str; type_ : option str; file_path : Path;
  docstring : option str; init_docstring : option str
}.
End Short.

Module Full.
Record t : Type := mk {
  name : str; kind : str; type_ : option str; file_path : Path;
  line : Z; column : Z;
  docstring : option str; init_docstring : option str; source : str
}.
End Full.

Module Outline.
#[local] Unset Elimination Schemes.
Inductive t : Type :=
| mk (name kind : str) (type_ : option str) (file_path : Path)
    (line column : Z) (docstring init_docstring : option str)
    (children : list t).
#[local] Set Elimination Schemes.
End Outline.

Module Reference.
Record t : Type := mk {
  symbol : str; file_path : Path; line : Z; column : Z
}.
End Reference.

Module Match.
Record t : Type := mk {
  name : str; kind : str; type_ : option str; file_path : Path
}.
End Match.

Definition ellipsis : str := [8230%N].
Definition truncated_marker : str := [10%N; 8230%N] ++ lit "(truncated)".

(** [if doc and len(doc) > max_chars: doc = doc[:max_chars] + "…"]. *)
Definition clip (max_chars : Z) (doc : option str) : option str :=
  match doc with
  | Some text =>
      if truthy text && (len text >? max_chars)
      then Some (slice_to text max_chars ++ ellipsis)
      else Some text
  | None => None
  end.

(** The source field of the full view. *)
Definition clip_source (max_chars : Z) (full_source : option str) : str :=
  let source := default [] full_source in
  if len source >? max_chars
  then slice_to source max_chars ++ truncated_marker
  else source.

(** The definition a short or full query is about: the lines the two
    methods share. [max_chars] plays no part in it. *)
Definition find_definition (w : World) (symbol : option str)
    (file_path : option Path) (self : LSPEngine)
    : outcome (option SymbolDefinition.t) :=
  match symbol with
  | Some symbol =>
      bind (_ensure_symbol_indexed w symbol self) (λ _ self,
        match _resolve_symbol_qualified_name self symbol with
        | Err x => Raise x self
        | Ok None => Return None self
        | Ok (Some qualname) =>
            Return (Dict.get (symbol_index self) qualname) self
        end)
  | None =>
      match file_path with
      | Some path =>
          bind (_ensure_file_indexed w path self) (λ _ self,
            let module_node := outline_index self !! path in
            Return (OutlineNode.symbol <$> module_node) self)
      | None => Return None self
      end
  end.

Definition short_view (max_chars : Z) (defn : SymbolDefinition.t)
    : Short.t :=
  Short.mk (SymbolDefinition.name defn) (SymbolDefinition.kind defn)
    (SymbolDefinition.type_annotation defn)
    (SymbolDefinition.file_path defn)
    (clip max_chars (SymbolDefinition.docstring defn))
    (clip max_chars (SymbolDefinition.init_docstring defn)).

Definition get_definition_short (w : World) (symbol : option str)
    (file_path : option Path) (max_chars : Z) (self : LSPEngine)
    : outcome (option Short.t) :=
  let max_chars := Z.min MAX_CHARS_HARD_LIMIT max_chars in
  bind (find_definition w symbol file_path self) (λ defn self,
    Return (short_view max_chars <$> defn) self).

Definition full_view (max_chars : Z) (defn : SymbolDefinition.t) : Full.t :=
  Full.mk (SymbolDefinition.name defn) (SymbolDefinition.kind defn)
    (SymbolDefinition.type_annotation defn)
    (SymbolDefinition.file_path defn)
    (SymbolDefinition.line defn) (SymbolDefinition.column defn)
    (SymbolDefinition.docstring defn)
    (SymbolDefinition.init_docstring defn)
    (clip_source max_chars (SymbolDefinition.full_source defn)).

Definition get_definition_full (w : World) (symbol : option str)
    (file_path : option Path) (max_chars : Z) (self : LSPEngine)
    : outcome (option Full.t) :=
  let max_chars := Z.min MAX_CHARS_HARD_LIMIT max_chars in
  bind (find_definition w symbol file_path self) (λ defn self,
    Return (full_view max_chars <$> defn) self).

Fixpoint _serialize_outline_node (node : OutlineNode.t) (max_chars : Z)
    : Outline.t :=
  let max_chars := Z.min MAX_CHARS_HARD_LIMIT max_chars in
  match node with
  | OutlineNode.mk defn children =>
      Outline.mk (SymbolDefinition.name defn) (SymbolDefinition.kind defn)
        (SymbolDefinition.type_annotation defn)
        (SymbolDefinition.file_path defn)
        (SymbolDefinition.line defn) (SymbolDefinition.column defn)
        (clip max_chars (SymbolDefinition.docstring defn))
        (clip max_chars (SymbolDefinition.init_docstring defn))
        ((fix each (children : list OutlineNode.t) : list Outline.t :=
            match children with
            | [] => []
            | child :: rest =>
                _serialize_outline_node child max_chars :: each rest
            end) children)
  end.

Definition get_outline (w : World) (symbol : option str)
    (file_path : option Path) (max_chars : Z) (self : LSPEngine)
    : outcome (list Outline.t) :=
  let max_chars := Z.min MAX_CHARS_HARD_LIMIT max_chars in
  let serialize_children := λ node : OutlineNode.t,
    (λ child, _serialize_outline_node child max_chars)
      <$> OutlineNode.children node in
  match symbol with
  | Some symbol =>
      bind (_ensure_symbol_indexed w symbol self) (λ _ self,
        match _resolve_symbol_qualified_name self symbol with
        | Err x => Raise x self
        | Ok None => Return [] self
        | Ok (Some qualname) =>
            match _node_index self !! qualname with
            | None => Return [] self
            | Some node => Return (serialize_children node) self
            end
        end)
  | None =>
      match file_path with
      | Some path =>
          bind (_ensure_file_indexed w path self) (λ _ self,
            match outline_index self !! path with
            | None => Return [] self
            | Some node => Return (serialize_children node) self
            end)
      | None => Return [] self
      end
  end.

(** The entry [get_references] appends for one reference: the context
    is clipped and then left out of the dictionary. *)
Definition reference_entry (max_chars : Z) (ref : SymbolReference.t)
    : Reference.t :=
  let ctx := clip max_chars (SymbolReference.context ref) in
  Reference.mk (SymbolReference.symbol ref) (SymbolReference.file_path ref)
    (SymbolReference.line ref) (SymbolReference.column ref).

Definition get_references (w : World) (symbol : option str)
    (file_path : option Path) (max_chars : Z) (self : LSPEngine)
    : outcome (list Reference.t) :=
  let max_chars := Z.min MAX_CHARS_HARD_LIMIT max_chars in
  match symbol with
  | Some symbol =>
      bind (_ensure_symbol_indexed w symbol self) (λ _ self,
        let results := default [] (_refs_by_symbol self !! symbol) in
        Return (reference_entry max_chars <$> results) self)
  | None =>
      match file_path with
      | Some path =>
          bind (_ensure_file_indexed w path self) (λ _ self,
            let results :=
              filter (λ ref, SymbolReference.file_path ref = path)
                (references self) in
            Return (reference_entry max_chars <$> results) self)
      | None => Return [] self
      end
  end.

(** [bool(s)] for an optional string argument. *)
Definition given (s : option str) : bool :=
  match s with Some text => truthy text | None => false end.

(** The three tests of [filter_symbols] on one definition. *)
Definition passes (w : World) (name kind type_hint : option str)
    (defn : SymbolDefinition.t) : bool :=
  (negb (given name)
   || contains (lower w (SymbolDefinition.name defn))
        (lower w (default [] name)))
  && (negb (given kind)
      || bool_decide (lower w (SymbolDefinition.kind defn)
                      = lower w (default [] kind)))
  && (negb (given type_hint)
      || contains
           (lower w (default [] (SymbolDefinition.type_annotation defn)))
           (lower w (default [] type_hint))).

(** The loop of [filter_symbols]: the length test comes after the
    append. *)
Fixpoint collect (w : World) (name kind type_hint : option str)
    (max_results : Z) (candidates : list SymbolDefinition.t)
    (matches : list Match.t) : list Match.t :=
  match candidates with
  | [] => matches
  | defn :: rest =>
      if passes w name kind type_hint defn then
        let matches :=
          matches ++
          [Match.mk (SymbolDefinition.name defn)
             (SymbolDefinition.kind defn)
             (SymbolDefinition.type_annotation defn)
             (SymbolDefinition.file_path defn)] in
        if len matches >=? max_results then matches
        else collect w name kind type_hint max_results rest matches
      else collect w name kind type_hint max_results rest matches
  end.

Definition filter_symbols (w : World) (name kind type_hint : option str)
    (file_path : option Path) (max_results max_chars : Z)
    (self : LSPEngine) : outcome (list Match.t) :=
  match file_path with
  | Some path =>
      bind (_ensure_file_indexed w path self) (λ _ self,
        let candidates :=
          filter (λ d, SymbolDefinition.file_path d = path)
            (Dict.values (symbol_index self)) in
        Return (collect w name kind type_hint max_results candidates [])
          self)
  | None =>
      Return
        (collect w name kind type_hint max_results
           (Dict.values (symbol_index self)) [])
        self
  end.

End Engine.

(** ** The vocabulary of the properties *)

Module Spec.
Import Ast Parser Engine.

(** The name occurrences of a tree, counted along its structure. *)
Fixpoint name_count (n : node) : nat :=
  let many := fix many (l : list node) : nat :=
    match l with [] => O | x :: r => (name_count x + many r)%nat end in
  let maybe := λ o : option node,
    match o with Some x => name_count x | None => O end in
  match n with
  | ClassDef _ _ _ _ _ before body after =>
      (many before + many body + many after)%nat
  | FunctionDef _ _ _ _ _ _ before body after =>
      (many before + many body + many after)%nat
  | Assign _ _ _ targets value => (many targets + name_count value)%nat
  | AnnAssign _ _ _ target annotation _ value =>
      (name_count target + maybe annotation + maybe value)%nat
  | Name _ _ _ => 1%nat
  | Other children => many children
  end.

Definition name_occurrences (tree : Module_) : nat :=
  sum_list (name_count <$> body tree).

(** A tree in depth-first order: what [ast.walk] yields, in another
    order. *)
Fixpoint flatten (n : node) : list node :=
  let many := fix many (l : list node) : list node :=
    match l with [] => [] | x :: r => flatten x ++ many r end in
  let maybe := λ o : option node,
    match o with Some x => flatten x | None => [] end in
  n ::
  match n with
  | ClassDef _ _ _ _ _ before body after =>
      many before ++ many body ++ many after
  | FunctionDef _ _ _ _ _ _ before body after =>
      many before ++ many body ++ many after
  | Assign _ _ _ targets value => many targets ++ flatten value
  | AnnAssign _ _ _ target annotation _ value =>
      flatten target ++ maybe annotation ++ maybe value
  | Name _ _ _ => [Other []]
  | Other children => many children
  end.

Definition is_name (n : node) : bool :=
  match n with Name _ _ _ => true | _ => false end.

(** Identifiers hold no dot. [well_named] asks it of the names that end
    up in qualified names: those of the classes and functions met by
    [walk_body] and of the assignment targets. *)
Definition dotfree (s : str) : bool := bool_decide (dot ∉ s).

Definition target_named (n : node) : bool :=
  match n with Name id _ _ => dotfree id | _ => true end.

Fixpoint well_named (n : node) : bool :=
  let all := fix all (l : list node) : bool :=
    match l with [] => true | x :: r => well_named x && all r end in
  match n with
  | ClassDef name _ _ _ _ _ body _ => dotfree name && all body
  | FunctionDef _ name _ _ _ _ _ body _ => dotfree name && all body
  | Assign _ _ _ targets _ => forallb target_named targets
  | AnnAssign _ _ _ target _ _ _ => target_named target
  | Name _ _ _ | Other _ => true
  end.

Definition well_named_module (tree : Module_) : bool :=
  forallb well_named (body tree).


(** What a file contributes when it is indexed. *)
Definition definitions_of (w : World) (root : Path) (p : Path)
    : list SymbolDefinition.t :=
  match parse_python_file w p (Some root) with
  | Ok (_, definitions, _) => Dict.values definitions
  | Err _ => []
  end.

Definition references_of (w : World) (root : Path) (p : Path)
    : list SymbolReference.t :=
  match parse_python_file w p (Some root) with
  | Ok (_, _, refs) => refs
  | Err _ => []
  end.

Definition parses (w : World) (root : Path) (p : Path) : Prop :=
  ∃ parsed, parse_python_file w p (Some root) = Ok parsed.

(** The nodes of an outline tree. *)
Fixpoint outline_nodes (n : OutlineNode.t) : list OutlineNode.t :=
  match n with
  | OutlineNode.mk _ children =>
      n :: (fix many (l : list OutlineNode.t) : list OutlineNode.t :=
              match l with
              | [] => []
              | x :: r => outline_nodes x ++ many r
              end) children
  end.

Definition symbols_of (nodes : list OutlineNode.t)
    : list SymbolDefinition.t :=
  OutlineNode.symbol <$> (nodes ≫= outline_nodes).

(** Storing definitions under their qualified names, in order. *)
Definition store_all (d : definitions_t) (l : list SymbolDefinition.t)
    : definitions_t :=
  foldl (λ d x, Dict.set d (SymbolDefinition.qualified_name x) x) d l.

(** A definition nested below the qualified name [pq]: its qualified
    name continues [pq] with dot-free identifiers, the last of which is
    its simple name. *)
Definition under (pq : str) (d : SymbolDefinition.t) : Prop :=
  ∃ ids, ids ≠ []
    ∧ Forall (λ x, dot ∉ x) ids
    ∧ SymbolDefinition.qualified_name d = pq ++ [dot] ++ join [dot] ids
    ∧ last ids = Some (SymbolDefinition.name d).



(** *** What indexing one file does to the state *)

Definition link_all (m : gmap str (list str))
    (l : list SymbolDefinition.t) : gmap str (list str) :=
  foldl (λ m x, setdefault_append (SymbolDefinition.name x)
                  (SymbolDefinition.qualified_name x) m) m l.

Definition file_all (m : gmap str (list SymbolReference.t))
    (l : list SymbolReference.t) : gmap str (list SymbolReference.t) :=
  foldl (λ m r, setdefault_append (SymbolReference.symbol r) r m) m l.

Definition node_all (m : gmap str OutlineNode.t) (l : list OutlineNode.t)
    : gmap str OutlineNode.t :=
  foldl (λ m n,
           <[SymbolDefinition.qualified_name (OutlineNode.symbol n) := n]> m)
    m l.

(** The state after [_index_file] has merged one parsed file. *)
Definition indexed_with (p : Path) (node : OutlineNode.t)
    (defs : list SymbolDefinition.t) (refs : list SymbolReference.t)
    (s : LSPEngine) : LSPEngine :=
  mkEngine (project_root s) (max_eager_files s) (max_eager_bytes s)
    (<[p := node]> (outline_index s))
    (store_all (symbol_index s) defs)
    (link_all (_symbols_by_simple_name s) defs)
    (references s ++ refs)
    (file_all (_refs_by_symbol s) refs)
    (node_all (_node_index s) (outline_nodes node))
    (_all_files s) (_file_sizes s) (_total_bytes s)
    (_indexed_files s ∪ {[p]}).

(** The state after [_ensure_file_indexed] has added a path to the
    discovered files. *)
Definition discovered_with (w : World) (p : Path) (s : LSPEngine)
    : LSPEngine :=
  set_file_sizes (λ m, <[p := default 0 (stat_size w p)]> m)
    (set_all_files (λ l, l ++ [p]) s).

(** Every change of state after discovery is one of these two. *)
Inductive step (w : World) : LSPEngine → LSPEngine → Prop :=
| step_index p node defs refs s :
    p ∉ _indexed_files s →
    exists_ w p = true →
    parse_python_file w p (Some (project_root s)) = Ok (node, defs, refs) →
    step w s (indexed_with p node (Dict.values defs) refs s)
| step_discover p s :
    p ∉ _indexed_files s →
    p ∉ _all_files s →
    step w s (discovered_with w p s).

(** A sequence of steps. *)
Definition steps (w : World) : relation LSPEngine := rtc (step w).

(** The sizes discovery records for the files of a sweep. *)
Definition sizes_of (w : World) (paths : list Path) : gmap Path Z :=
  foldl (λ m p, <[p := default 0 (stat_size w p)]> m) ∅ paths.

(** What one statement, or a body, adds: the outline nodes do not depend
    on the dictionary passed in, the dictionary receives the symbols of
    those nodes in order, every symbol lies in the file, and with
    dot-free identifiers every symbol is nested below the parent. *)
Definition adds (file_path : Path) (parent_def : SymbolDefinition.t)
    (ok : bool)
    (run : definitions_t → list OutlineNode.t * definitions_t) : Prop :=
  ∃ nodes,
    (∀ defs, run defs = (nodes, store_all defs (symbols_of nodes)))
    ∧ Forall (λ d, SymbolDefinition.file_path d = file_path)
        (symbols_of nodes)
    ∧ (ok = true →
       Forall (under (SymbolDefinition.qualified_name parent_def))
         (symbols_of nodes)).

(** The module definition [parse_python_file] starts from. *)
Definition module_def_of (p : Path) (root : option Path) (text : str)
    (tree : Module_) : SymbolDefinition.t :=
  let q := _compute_module_qualified_name p root in
  SymbolDefinition.mk None (default [] (last (split dot q))) (lit "module")
    None p 1 0 (module_docstring tree) None (Some text) q.

(** The affinity group of [score]: 0 for a file whose stem holds the
    symbol, case folded, and 1 for the others. *)
Definition group (w : World) (symbol : str) (path : Path) : Z :=
  if contains (lower w (stem path)) (lower w symbol) then 0 else 1.

(** *** The public operations and the states they lead to *)

Inductive call : Type :=
| DefinitionShort (symbol : option str) (file_path : option Path)
    (max_chars : Z)
| DefinitionFull (symbol : option str) (file_path : option Path)
    (max_chars : Z)
| GetOutline (symbol : option str) (file_path : option Path)
    (max_chars : Z)
| GetReferences (symbol : option str) (file_path : option Path)
    (max_chars : Z)
| FilterSymbols (name kind type_hint : option str)
    (file_path : option Path) (max_results max_chars : Z).

(** The engine after a call, whether the call returned or raised. *)
Definition after (w : World) (c : call) (s : LSPEngine) : LSPEngine :=
  match c with
  | DefinitionShort symbol file_path k =>
      state_of (get_definition_short w symbol file_path k s)
  | DefinitionFull symbol file_path k =>
      state_of (get_definition_full w symbol file_path k s)
  | GetOutline symbol file_path k =>
      state_of (get_outline w symbol file_path k s)
  | GetReferences symbol file_path k =>
      state_of (get_references w symbol file_path k s)
  | FilterSymbols name kind type_hint file_path n k =>
      state_of (filter_symbols w name kind type_hint file_path n k s)
  end.

(** The engines that exist: constructed in a world, then used through
    the public operations, each in a world that [W] admits. *)
Inductive reachable (W : World → Prop) : LSPEngine → Prop :=
| reachable_init w root max_files max_bytes s :
    W w →
    init w root max_files max_bytes = Return () s →
    reachable W s
| reachable_call w c s :
    W w → reachable W s → reachable W (after w c s).

(** Cross-consistency of the index maps. *)
Definition consistent (s : LSPEngine) : Prop :=
  (∀ name names q,
      _symbols_by_simple_name s !! name = Some names → q ∈ names →
      is_Some (Dict.get (symbol_index s) q))
  ∧ (∀ q node,
      _node_index s !! q = Some node →
      is_Some (Dict.get (symbol_index s) q)).


(** What the index maps of an engine hold, in a world that does not
    change: every entry comes from the parse of an indexed file, and
    every indexed file is there in full. *)
Record sound (w : World) (s : LSPEngine) : Prop := {
  sound_indexed p :
    p ∈ _indexed_files s →
    ∃ node defs refs,
      parse_python_file w p (Some (project_root s)) = Ok (node, defs, refs)
      ∧ outline_index s !! p = Some node
      ∧ ∀ d, d ∈ Dict.values defs →
          is_Some (Dict.get (symbol_index s)
                     (SymbolDefinition.qualified_name d))
          ∧ ∃ names,
              _symbols_by_simple_name s !! SymbolDefinition.name d
              = Some names
              ∧ SymbolDefinition.qualified_name d ∈ names;
  sound_outline p node :
    outline_index s !! p = Some node → p ∈ _indexed_files s;
  sound_symbols q d :
    Dict.get (symbol_index s) q = Some d →
    SymbolDefinition.qualified_name d = q
    ∧ ∃ p, p ∈ _indexed_files s
           ∧ d ∈ definitions_of w (project_root s) p;
  sound_names n names q :
    _symbols_by_simple_name s !! n = Some names → q ∈ names →
    ∃ d p, p ∈ _indexed_files s
           ∧ d ∈ definitions_of w (project_root s) p
           ∧ SymbolDefinition.name d = n
           ∧ SymbolDefinition.qualified_name d = q;
  sound_references p :
    filter (λ r, SymbolReference.file_path r = p) (references s)
    = if decide (p ∈ _indexed_files s)
      then references_of w (project_root s) p else []
}.






End Spec.

(** ** Concrete worlds for the examples *)

Module Demo.
Import Ast Parser Engine.

(** A world made of text files: [files] gives the text at each path and
    [grammar] the tree of each text that parses. *)
Definition world (files : list (Path * str))
    (grammar : list (str * Ast.Module_)) : World :=
  {| rglob_py root :=
       filter (λ p, is_Some (relative_to p root) ∧ suffix p = lit ".py")
         (files.*1);
     stat_size p := len <$> Dict.get files p;
     exists_ p := Dict.mem files p;
     read_text p :=
       match Dict.get files p with Some text => Ok text | None => Err OSError end;
     ast_parse text :=
       match Dict.get grammar text with
       | Some tree => Ok tree
       | None => Err SyntaxError
       end;
     lower := ascii_lower |}.

Definition root : Path := [lit "proj"].





(** [bad.py] does not parse; [good.py] does and is the larger file. *)
Definition text_good : str := lit "x = 1".
Definition tree_good : Ast.Module_ :=
  {| module_docstring := None;
     body := [Assign 1 0 (Some text_good) [Name (lit "x") 1 0] (Other [])] |}.
Definition file_bad : Path := [lit "proj"; lit "bad.py"].
Definition file_good : Path := [lit "proj"; lit "good.py"].

Definition broken : World :=
  world [(file_bad, lit "("); (file_good, text_good)]
        [(text_good, tree_good)].

(** A project after the repository's own tests: a class with a
    constructor in [main.py], and [util] defined in both [pkg_a.py] and
    [pkg_b.py]. *)
Definition text_class : str := lit
"class MyClass:
    '''This is MyClass docstring.'''
    def __init__(self, x):
        '''Initialises MyClass with x.'''
        self.x = x
".
Definition text_main : str := text_class ++ lit "obj = MyClass(10)".

Definition tree_main : Ast.Module_ :=
  {| module_docstring := None;
     body :=
       [ClassDef (lit "MyClass") 1 0
          (Some (lit "This is MyClass docstring.")) (Some text_class) []
          [Other [Other []];
           FunctionDef false (lit "__init__") 3 4
             (Some (lit "Initialises MyClass with x."))
             (Some (lit "def __init__(self, x): ..."))
             [Other [Other []; Other []]]
             [Other [Other []];
              Assign 5 8 (Some (lit "self.x = x"))
                [Other [Name (lit "self") 5 8; Other []]]
                (Name (lit "x") 5 17)]
             []]
          [];
        Assign 6 0 (Some (lit "obj = MyClass(10)"))
          [Name (lit "obj") 6 0]
          (Other [Name (lit "MyClass") 6 6; Other []])] |}.

Definition text_util_a : str := lit
"def util():
    '''util in A'''
    return 1
".
Definition text_util_b : str := lit
"def util():
    '''util in B'''
    return 2
".
Definition tree_util (doc src : str) : Ast.Module_ :=
  {| module_docstring := None;
     body := [FunctionDef false (lit "util") 1 0 (Some doc) (Some src)
                [Other []] [Other [Other []]; Other [Other []]] []] |}.

Definition file_main : Path := [lit "proj"; lit "main.py"].
Definition file_pkg_a : Path := [lit "proj"; lit "pkg_a.py"].
Definition file_pkg_b : Path := [lit "proj"; lit "pkg_b.py"].

Definition project : World :=
  world [(file_main, text_main); (file_pkg_a, text_util_a);
         (file_pkg_b, text_util_b)]
        [(text_main, tree_main);
         (text_util_a, tree_util (lit "util in A") text_util_a);
         (text_util_b, tree_util (lit "util in B") text_util_b)].

Definition project_engine : LSPEngine :=
  state_of (init project root 10 10000).

(** The same project with nothing indexed eagerly. *)
Definition lazy_engine : LSPEngine :=
  state_of (init project root 0 0).

(** A sweep that meets a broken symbolic link: the path is listed, its
    size cannot be read and it does not exist. *)
Definition file_ghost : Path := [lit "proj"; lit "ghost.py"].

Definition dangling : World :=
  {| rglob_py _ := [file_ghost];
     stat_size _ := None;
     exists_ _ := false;
     read_text _ := Err OSError;
     ast_parse _ := Err SyntaxError;
     lower := ascii_lower |}.

End Demo.

(** * Facts about the built-ins *)

Module PyFacts.

Section Sorted.
Context {A K : Type} (leb : K → K → bool) (key : A → K).

Hypothesis leb_total : ∀ a b, leb a b = false → leb b a = true.
Hypothesis leb_trans :
  ∀ a b c, leb a b = true → leb b c = true → leb a c = true.

Lemma insert_sorted_perm x l : insert_sorted leb key x l ≡ₚ x :: l.
Proof.
  induction l as [|y l IH]; simpl; [done|].
  destruct (leb (key x) (key y)); [done|].
  rewrite IH. apply Permutation_swap.
Qed.

Lemma sorted_perm l : sorted leb key l ≡ₚ l.
Proof.
  induction l as [|x l IH]; simpl; [done|].
  by rewrite insert_sorted_perm, IH.
Qed.

Lemma elem_of_sorted x l : x ∈ sorted leb key l ↔ x ∈ l.
Proof. by rewrite sorted_perm. Qed.

Lemma insert_sorted_ascending x l :
  StronglySorted (key_le leb key) l → StronglySorted (key_le leb key) (insert_sorted leb key x l).
Proof.
  induction 1 as [|y l Hl IH Hy]; simpl.
  - repeat constructor.
  - destruct (leb (key x) (key y)) eqn:Hxy.
    + constructor; [by constructor|].
      constructor; [done|].
      eapply Forall_impl; [exact Hy|].
      intros z Hz. unfold key_le in *. eauto.
    + constructor; [done|].
      rewrite insert_sorted_perm. constructor; [|done].
      unfold key_le. auto.
Qed.

Lemma sorted_ascending l : StronglySorted (key_le leb key) (sorted leb key l).
Proof.
  induction l as [|x l IH]; simpl; [constructor|].
  by apply insert_sorted_ascending.
Qed.
End Sorted.

Lemma StronglySorted_weaken {A} (R R' : A → A → Prop) l :
  (∀ a b, R a b → R' a b) → StronglySorted R l → StronglySorted R' l.
Proof.
  intros HR. induction 1 as [|x l _ IH Hx]; constructor; [done|].
  eapply Forall_impl; [exact Hx|]. intros y. apply HR.
Qed.

Lemma int_leb_total a b : int_leb a b = false → int_leb b a = true.
Proof. unfold int_leb. lia. Qed.

Lemma int_leb_trans a b c :
  int_leb a b = true → int_leb b c = true → int_leb a c = true.
Proof. unfold int_leb. lia. Qed.

Lemma pair_leb_spec a b :
  pair_leb a b = true ↔ a.1 < b.1 ∨ (a.1 = b.1 ∧ a.2 ≤ b.2).
Proof. unfold pair_leb. destruct a, b; simpl. lia. Qed.

Lemma pair_leb_total a b : pair_leb a b = false → pair_leb b a = true.
Proof.
  intros H. apply pair_leb_spec.
  destruct (pair_leb a b) eqn:E; [done|].
  assert (¬ (a.1 < b.1 ∨ (a.1 = b.1 ∧ a.2 ≤ b.2))) by
    (rewrite <- pair_leb_spec; congruence).
  lia.
Qed.

Lemma pair_leb_trans a b c :
  pair_leb a b = true → pair_leb b c = true → pair_leb a c = true.
Proof. rewrite !pair_leb_spec. lia. Qed.

(** Slices with a bound that is not negative are [take]. *)
Lemma slice_to_nonneg {A} (l : list A) (n : Z) :
  0 ≤ n → slice_to l n = take (Z.to_nat n) l.
Proof.
  intros Hn. unfold slice_to, clamp.
  destruct (n <? 0) eqn:E; [lia|].
  destruct (decide (Z.to_nat n ≤ length l)%nat).
  - by rewrite Nat.min_r by lia.
  - rewrite Nat.min_l by lia. rewrite !take_ge; [done|lia|lia].
Qed.



End PyFacts.

(** * Dotted names: [join] and [split] *)

Module Dotted.
Import Spec.

Lemma split_nonempty c s : split c s ≠ [].
Proof.
  destruct s as [|x s]; simpl; [done|].
  destruct (N.eqb x c); [done|]. by destruct (split c s).
Qed.

Lemma split_free c s : c ∉ s → split c s = [s].
Proof.
  induction s as [|x s IH]; simpl; [done|].
  intros Hc. apply not_elem_of_cons in Hc as [Hx Hs].
  destruct (N.eqb_spec x c); [congruence|].
  by rewrite IH.
Qed.

Lemma split_app c a b : split c (a ++ c :: b) = split c a ++ split c b.
Proof.
  induction a as [|x a IH]; simpl.
  - by rewrite N.eqb_refl.
  - destruct (N.eqb x c); [by rewrite IH|].
    rewrite IH. pose proof (split_nonempty c a).
    by destruct (split c a).
Qed.

Lemma last_split_app c a b :
  c ∉ b → last (split c (a ++ c :: b)) = Some b.
Proof.
  intros Hb. rewrite split_app, (split_free c b) by done.
  apply last_snoc.
Qed.

Lemma join_cons sep x l :
  l ≠ [] → join sep (x :: l) = x ++ sep ++ join sep l.
Proof. by destruct l. Qed.

Lemma join_snoc sep l x :
  l ≠ [] → join sep (l ++ [x]) = join sep l ++ sep ++ x.
Proof.
  induction l as [|y l IH]; [done|]. intros _.
  destruct l as [|z l]; [done|].
  change ((y :: z :: l) ++ [x]) with (y :: ((z :: l) ++ [x])).
  rewrite join_cons by (simpl; congruence). rewrite IH by done.
  rewrite (join_cons sep y (z :: l)) by done. by rewrite <- !app_assoc.
Qed.




Lemma dotfree_spec s : dotfree s = true ↔ dot ∉ s.
Proof. unfold dotfree. by rewrite bool_decide_eq_true. Qed.


End Dotted.

(** * Syntax trees: induction, and what [ast.walk] visits *)

Module AstFacts.
Import Ast Spec.

(** Induction over a tree through its child nodes. *)
Lemma node_children_ind (P : node → Prop) :
  (∀ n, Forall P (iter_child_nodes n) → P n) → ∀ n, P n.
Proof.
  intros step. fix IH 1. intros n. apply step.
  pose (many := fix many (l : list node) : Forall P l :=
          match l with
          | [] => @List.Forall_nil _ P
          | x :: r => @List.Forall_cons _ P x r (IH x) (many r)
          end).
  pose (maybe := λ o : option node,
          match o return Forall P (option_list o) with
          | Some x => @List.Forall_cons _ P x [] (IH x) (@List.Forall_nil _ P)
          | None => @List.Forall_nil _ P
          end).
  destruct n; simpl.
  - apply Forall_app; split; [apply many|].
    apply Forall_app; split; apply many.
  - apply Forall_app; split; [apply many|].
    apply Forall_app; split; apply many.
  - apply Forall_app; split; [apply many|].
    constructor; [apply IH|constructor].
  - constructor; [apply IH|].
    apply Forall_app; split; apply maybe.
  - constructor; [|constructor]. apply step. constructor.
  - apply many.
Qed.

Lemma flatten_many l :
  (fix many (l : list node) : list node :=
     match l with [] => [] | x :: r => flatten x ++ many r end) l
  = l ≫= flatten.
Proof. induction l as [|x l IH]; simpl; [done|]. by rewrite IH. Qed.

Lemma flatten_children n :
  flatten n = n :: (iter_child_nodes n ≫= flatten).
Proof.
  destruct n; simpl; rewrite ?flatten_many, ?bind_app; f_equal.
  - simpl. by rewrite app_nil_r.
  - destruct annotation, value; simpl; by rewrite ?app_nil_r.
Qed.

Lemma size_many l :
  (fix sizes (l : list node) : nat :=
     match l with [] => O | x :: r => (size x + sizes r)%nat end) l
  = sizes l.
Proof.
  unfold sizes. induction l as [|x l IH]; simpl; [done|]. by rewrite IH.
Qed.

Lemma sizes_app l1 l2 : sizes (l1 ++ l2) = (sizes l1 + sizes l2)%nat.
Proof. unfold sizes. by rewrite fmap_app, sum_list_with_app. Qed.

Lemma sizes_cons n l : sizes (n :: l) = (size n + sizes l)%nat.
Proof. done. Qed.

Lemma size_children n : size n = S (sizes (iter_child_nodes n)).
Proof.
  destruct n; simpl; rewrite ?size_many, ?sizes_app; try done; try lia.
  - unfold sizes. simpl. lia.
  - destruct annotation, value; unfold sizes; simpl; lia.
Qed.

(** With the fuel [walk] gives it, the queue is emptied: every node of
    the trees is visited, once. *)
Lemma walk_queue_visits fuel todo :
  (sizes todo ≤ fuel)%nat → walk_queue fuel todo ≡ₚ todo ≫= flatten.
Proof.
  revert todo. induction fuel as [|fuel IH]; intros todo Hfuel.
  - destruct todo as [|n rest]; [done|].
    rewrite sizes_cons, size_children in Hfuel. lia.
  - destruct todo as [|n rest]; [done|]. simpl.
    rewrite sizes_cons, size_children in Hfuel.
    rewrite IH by (rewrite sizes_app; lia).
    rewrite flatten_children, bind_app. simpl.
    constructor. apply Permutation_app_comm.
Qed.

Lemma walk_visits tree : walk tree ≡ₚ body tree ≫= flatten.
Proof. by apply walk_queue_visits. Qed.

Lemma name_count_many l :
  (fix many (l : list node) : nat :=
     match l with [] => O | x :: r => (name_count x + many r)%nat end) l
  = sum_list (name_count <$> l).
Proof. induction l as [|x l IH]; simpl; [done|]. by rewrite IH. Qed.

Lemma name_count_children n :
  name_count n
  = ((if is_name n then 1 else 0)
     + sum_list (name_count <$> iter_child_nodes n))%nat.
Proof.
  destruct n; simpl;
    rewrite ?name_count_many, ?fmap_app, ?sum_list_with_app; simpl; try lia.
  destruct annotation, value; simpl; lia.
Qed.

Lemma names_of_flatten n :
  length (filter (λ x, is_name x = true) (flatten n)) = name_count n.
Proof.
  induction n as [n IH] using node_children_ind.
  rewrite flatten_children, name_count_children.
  assert (length (filter (λ x, is_name x = true)
                    (iter_child_nodes n ≫= flatten))
          = sum_list (name_count <$> iter_child_nodes n)) as Hkids.
  { induction IH as [|x l Hx _ IHl]; [done|].
    rewrite bind_cons, filter_app, length_app, Hx, IHl. done. }
  rewrite filter_cons. destruct (decide (is_name n = true)) as [Hn|Hn].
  - simpl. rewrite Hkids, Hn. done.
  - rewrite Hkids. by destruct (is_name n).
Qed.

(** [ast.walk] meets as many [Name] nodes as the tree holds. *)
Lemma names_of_walk tree :
  length (filter (λ x, is_name x = true) (walk tree))
  = name_occurrences tree.
Proof.
  rewrite walk_visits. unfold name_occurrences.
  induction (body tree) as [|x l IH]; [done|].
  rewrite bind_cons, filter_app, length_app, names_of_flatten, IH. done.
Qed.

End AstFacts.

(** * Insertion-ordered dictionaries *)

Module DictFacts.
Import Spec.

Section Dict.
Context {K V : Type} `{EqDecision K}.
Implicit Types d : Dict.t K V.

Lemma get_set_eq d k v : Dict.get (Dict.set d k v) k = Some v.
Proof.
  induction d as [|[k' v'] d IH]; simpl.
  - by rewrite decide_True.
  - destruct (decide (k' = k)); simpl.
    + by rewrite decide_True.
    + by rewrite decide_False.
Qed.

Lemma get_set_ne d k k' v :
  k ≠ k' → Dict.get (Dict.set d k v) k' = Dict.get d k'.
Proof.
  intros Hne. induction d as [|[k0 v0] d IH]; simpl.
  - by rewrite decide_False.
  - destruct (decide (k0 = k)) as [->|]; simpl.
    + by rewrite !decide_False.
    + destruct (decide (k0 = k')); [done|apply IH].
Qed.

Lemma get_set d k k' v :
  Dict.get (Dict.set d k v) k'
  = if decide (k = k') then Some v else Dict.get d k'.
Proof.
  destruct (decide (k = k')) as [->|];
    [apply get_set_eq|by apply get_set_ne].
Qed.

Lemma get_Some_elem d k v : Dict.get d k = Some v → (k, v) ∈ d.
Proof.
  induction d as [|[k' v'] d IH]; simpl; [done|].
  destruct (decide (k' = k)) as [->|].
  - intros [= ->]. left.
  - intros ?. right. auto.
Qed.

Lemma elem_get_is_Some d k v : (k, v) ∈ d → is_Some (Dict.get d k).
Proof.
  induction d as [|[k' v'] d IH]; simpl; [by intros ?%elem_of_nil|].
  intros [[= -> ->]|?]%elem_of_cons.
  - rewrite decide_True by done. eauto.
  - destruct (decide (k' = k)); eauto.
Qed.

Lemma elem_set d k v k' v' :
  (k', v') ∈ Dict.set d k v → (k', v') = (k, v) ∨ (k', v') ∈ d.
Proof.
  induction d as [|[k0 v0] d IH]; simpl.
  - intros ?%list_elem_of_singleton. by left.
  - destruct (decide (k0 = k)) as [->|].
    + intros [?|?]%elem_of_cons; [by left|]. right. by right.
    + intros [->|?]%elem_of_cons.
      * right. by left.
      * destruct IH as [?|?]; [done|by left|]. right. by right.
Qed.

Lemma mem_spec d k : Dict.mem d k = true ↔ is_Some (Dict.get d k).
Proof. unfold Dict.mem. by rewrite bool_decide_eq_true. Qed.

Lemma elem_values d v : v ∈ Dict.values d ↔ ∃ k, (k, v) ∈ d.
Proof.
  unfold Dict.values. rewrite list_elem_of_fmap. split.
  - intros ([k v'] & -> & ?). by exists k.
  - intros [k ?]. by exists (k, v).
Qed.
End Dict.

(** [store_all] keeps the keys there were and adds the qualified names
    of what it stores. *)
Lemma store_all_cons d x l :
  store_all d (x :: l)
  = store_all (Dict.set d (SymbolDefinition.qualified_name x) x) l.
Proof. done. Qed.

Lemma store_all_app d l1 l2 :
  store_all d (l1 ++ l2) = store_all (store_all d l1) l2.
Proof. apply foldl_app. Qed.

Lemma store_all_elem d l k v :
  (k, v) ∈ store_all d l →
  (k, v) ∈ d ∨ (v ∈ l ∧ k = SymbolDefinition.qualified_name v).
Proof.
  revert d. induction l as [|x l IH]; intros d; simpl; [by left|].
  intros [Hd|[Hv ->]]%IH.
  - apply elem_set in Hd as [[= -> ->]|?]; [|by left].
    right. split; [left|done].
  - right. split; [by right|done].
Qed.

Lemma store_all_keeps d l k :
  is_Some (Dict.get d k) → is_Some (Dict.get (store_all d l) k).
Proof.
  revert d. induction l as [|x l IH]; intros d; simpl; [done|].
  intros Hk. apply IH. rewrite get_set. by case_decide.
Qed.

Lemma store_all_stores d l x :
  x ∈ l →
  is_Some (Dict.get (store_all d l) (SymbolDefinition.qualified_name x)).
Proof.
  revert d. induction l as [|y l IH]; intros d; [by intros ?%elem_of_nil|].
  intros [->|?]%elem_of_cons; simpl.
  - apply store_all_keeps. rewrite get_set_eq. eauto.
  - by apply IH.
Qed.

Lemma store_all_get d l k v :
  Dict.get (store_all d l) k = Some v →
  Dict.get d k = Some v
  ∨ (v ∈ l ∧ SymbolDefinition.qualified_name v = k).
Proof.
  revert d. induction l as [|x l IH]; intros d; simpl; [by left|].
  intros [Hd|[Hv Hk]]%IH.
  - rewrite get_set in Hd. case_decide as Hx.
    + injection Hd as ->. right. split; [left|done].
    + by left.
  - right. split; [by right|done].
Qed.


End DictFacts.

(** * What the parser returns *)

Module ParserFacts.
Import Ast Parser Spec Dotted DictFacts AstFacts.

#[local] Arguments symbols_of : simpl never.
#[local] Arguments store_all : simpl never.

Lemma outline_nodes_children d kids :
  outline_nodes (OutlineNode.mk d kids)
  = OutlineNode.mk d kids :: (kids ≫= outline_nodes).
Proof.
  simpl. by f_equal.
Qed.

Lemma symbols_of_app a b : symbols_of (a ++ b) = symbols_of a ++ symbols_of b.
Proof. unfold symbols_of. by rewrite bind_app, fmap_app. Qed.

Lemma symbols_of_node d kids :
  symbols_of [OutlineNode.mk d kids] = d :: symbols_of kids.
Proof.
  unfold symbols_of. rewrite bind_cons, outline_nodes_children.
  simpl. by rewrite app_nil_r.
Qed.

Lemma symbols_of_cons n nodes :
  symbols_of (n :: nodes) = symbols_of [n] ++ symbols_of nodes.
Proof. apply (symbols_of_app [n]). Qed.

Lemma symbols_of_leaf d nodes :
  symbols_of (OutlineNode.mk d [] :: nodes) = d :: symbols_of nodes.
Proof. by rewrite symbols_of_cons, symbols_of_node. Qed.

(** The local loop of [walk_stmt] is [walk_body]. *)
Lemma walk_body_inner file_path body parent_def definitions :
  (fix inner (body : list node) (parent_def : SymbolDefinition.t)
       (definitions : definitions_t) {struct body}
       : list OutlineNode.t * definitions_t :=
     match body with
     | [] => ([], definitions)
     | stmt :: rest =>
         let '(first, definitions) :=
           walk_stmt file_path parent_def stmt definitions in
         let '(others, definitions) := inner rest parent_def definitions in
         (first ++ others, definitions)
     end) body parent_def definitions
  = walk_body file_path body parent_def definitions.
Proof.
  revert definitions. induction body as [|stmt rest IH]; intros; [done|].
  simpl. destruct (walk_stmt _ _ _ _). by rewrite IH.
Qed.

Lemma under_leaf pq d :
  dot ∉ SymbolDefinition.name d →
  SymbolDefinition.qualified_name d
    = pq ++ lit "." ++ SymbolDefinition.name d →
  under pq d.
Proof.
  intros Hfree Hq. exists [SymbolDefinition.name d].
  split; [done|]. split; [by constructor|]. split; [exact Hq|done].
Qed.

Lemma under_nest pq name d :
  dot ∉ name → under (pq ++ lit "." ++ name) d → under pq d.
Proof.
  intros Hfree (ids & Hne & Hids & Hq & Hlast).
  exists (name :: ids). split; [done|]. split; [by constructor|]. split.
  - rewrite Hq, join_cons by done. by rewrite <- !app_assoc.
  - rewrite last_cons, Hlast. done.
Qed.

Lemma walk_targets_adds file_path parent_def lineno col_offset src targets :
  adds file_path parent_def (forallb target_named targets)
    (walk_targets file_path parent_def lineno col_offset src targets).
Proof.
  induction targets as [|t targets (nodes & Hrun & Hfile & Hunder)].
  { exists []. by repeat split. }
  destruct t as [| | | |id ln' co'|]; try (exists nodes; by repeat split).
  set (var := SymbolDefinition.mk
                (Some (SymbolDefinition.qualified_name parent_def)) id
                (lit "variable") None file_path lineno col_offset None None
                (Some src)
                (SymbolDefinition.qualified_name parent_def ++ lit "." ++ id)).
  exists (OutlineNode.mk var [] :: nodes). split; [|split].
  - intros defs. simpl. rewrite Hrun.
    rewrite symbols_of_leaf, store_all_cons. done.
  - rewrite symbols_of_leaf.
    constructor; [done|exact Hfile].
  - simpl. intros [Hid Hrest]%andb_prop.
    rewrite symbols_of_leaf.
    constructor; [|by apply Hunder].
    apply under_leaf; [by apply dotfree_spec|done].
Qed.

Lemma walk_body_adds file_path parent_def body :
  Forall (λ n, ∀ parent_def,
            adds file_path parent_def (well_named n)
              (walk_stmt file_path parent_def n)) body →
  adds file_path parent_def (forallb well_named body)
    (λ defs, walk_body file_path body parent_def defs).
Proof.
  induction 1 as [|n body Hn _ (others & Hrun & Hfile & Hunder)].
  { exists []. by repeat split. }
  destruct (Hn parent_def) as (first & Hrun1 & Hfile1 & Hunder1).
  exists (first ++ others). split; [|split].
  - intros defs. simpl. rewrite Hrun1, Hrun.
    by rewrite symbols_of_app, store_all_app.
  - rewrite symbols_of_app. by apply Forall_app.
  - simpl. intros [H1 H2]%andb_prop.
    rewrite symbols_of_app. apply Forall_app. auto.
Qed.

Lemma well_named_all body :
  (fix all (l : list node) : bool :=
     match l with [] => true | x :: r => well_named x && all r end) body
  = forallb well_named body.
Proof. done. Qed.

Lemma walk_stmt_adds file_path n :
  ∀ parent_def,
    adds file_path parent_def (well_named n)
      (walk_stmt file_path parent_def n).
Proof.
  induction n as [n IH] using node_children_ind. intros parent_def.
  destruct n as [nm ln co doc seg pre bd post
                |async nm ln co doc seg pre bd post
                |ln co seg targets value
                |ln co seg target annotation unparsed value
                |id ln co
                |kids]; simpl in IH.
  - apply Forall_app in IH as [_ [IH _]%Forall_app].
    set (q := SymbolDefinition.qualified_name parent_def ++ lit "." ++ nm).
    set (cls := SymbolDefinition.mk
                  (Some (SymbolDefinition.qualified_name parent_def)) nm
                  (lit "class") None file_path ln co doc
                  (find_init_docstring bd) (Some (default [] seg)) q).
    destruct (walk_body_adds file_path cls bd IH)
      as (children & Hrun & Hfile & Hunder).
    exists [OutlineNode.mk cls children]. split; [|split].
    + intros defs. simpl. rewrite walk_body_inner. fold q. fold cls.
      rewrite Hrun, symbols_of_node, store_all_cons. done.
    + rewrite symbols_of_node. by constructor.
    + simpl. rewrite well_named_all. intros [Hname Hbody]%andb_prop.
      apply dotfree_spec in Hname.
      rewrite symbols_of_node. constructor.
      * by apply under_leaf.
      * eapply Forall_impl; [by apply Hunder|].
        intros d Hd. by apply (under_nest _ nm).
  - apply Forall_app in IH as [_ [IH _]%Forall_app].
    set (q := SymbolDefinition.qualified_name parent_def ++ lit "." ++ nm).
    set (fn := SymbolDefinition.mk
                 (Some (SymbolDefinition.qualified_name parent_def)) nm
                 (lit "function") None file_path ln co doc
                 None (Some (default [] seg)) q).
    destruct (walk_body_adds file_path fn bd IH)
      as (children & Hrun & Hfile & Hunder).
    exists [OutlineNode.mk fn children]. split; [|split].
    + intros defs. simpl. rewrite walk_body_inner. fold q. fold fn.
      rewrite Hrun, symbols_of_node, store_all_cons. done.
    + rewrite symbols_of_node. by constructor.
    + simpl. rewrite well_named_all. intros [Hname Hbody]%andb_prop.
      apply dotfree_spec in Hname.
      rewrite symbols_of_node. constructor.
      * by apply under_leaf.
      * eapply Forall_impl; [by apply Hunder|].
        intros d Hd. by apply (under_nest _ nm).
  - apply walk_targets_adds.
  - destruct target as [| | | |id ln' co'|];
      try (exists []; by repeat split).
    set (var := SymbolDefinition.mk
                  (Some (SymbolDefinition.qualified_name parent_def)) id
                  (lit "variable")
                  match annotation with
                  | Some _ => Some unparsed
                  | None => None
                  end
                  file_path ln co None None (Some (default [] seg))
                  (SymbolDefinition.qualified_name parent_def
                     ++ lit "." ++ id)).
    exists [OutlineNode.mk var []]. split; [|split].
    + intros defs. simpl. rewrite symbols_of_leaf, store_all_cons. done.
    + rewrite symbols_of_leaf. by repeat constructor.
    + simpl. intros Hid%dotfree_spec. rewrite symbols_of_leaf.
      repeat constructor. by apply under_leaf.
  - exists []. by repeat split.
  - exists []. by repeat split.
Qed.



(** The result of a parse is determined by the text read and its tree:
    the dictionary holds the symbols of the outline, stored in outline
    order, and there is one reference per name node walked. *)
Lemma parse_python_file_inv w p root node defs refs :
  parse_python_file w p root = Ok (node, defs, refs) →
  ∃ text tree children,
    read_text w p = Ok text
    ∧ ast_parse w text = Ok tree
    ∧ node = OutlineNode.mk (module_def_of p root text tree) children
    ∧ defs = store_all [] (symbols_of [node])
    ∧ Forall (λ d, SymbolDefinition.file_path d = p) (symbols_of [node])
    ∧ refs = omap (reference_of p text) (walk tree)
    ∧ (well_named_module tree = true →
       Forall (under (_compute_module_qualified_name p root))
         (symbols_of children)).
Proof.
  unfold parse_python_file.
  destruct (read_text w p) as [text|] eqn:Hread; [|done].
  destruct (ast_parse w text) as [tree|] eqn:Htree; [|done].
  fold (module_def_of p root text tree).
  destruct (walk_body_adds p (module_def_of p root text tree) (body tree))
    as (children & Hrun & Hfile & Hunder).
  { apply Forall_forall. intros n _. apply walk_stmt_adds. }
  rewrite Hrun. intros [= <- <- <-].
  exists text, tree, children.
  split; [done|]. split; [done|]. split; [done|]. split.
  { by rewrite symbols_of_node, store_all_cons. }
  split; [|split; [|exact Hunder]].
  - rewrite symbols_of_node. by constructor.
  - done.
Qed.

Lemma length_references p text nodes :
  length (omap (reference_of p text) nodes)
  = length (filter (λ x, is_name x = true) nodes).
Proof.
  induction nodes as [|n nodes IH]; [done|].
  destruct n;
    first [rewrite filter_cons_True by done
          |rewrite filter_cons_False by done];
    csimpl; by rewrite IH.
Qed.

Lemma references_in_file p text nodes :
  Forall (λ r, SymbolReference.file_path r = p)
    (omap (reference_of p text) nodes).
Proof.
  apply Forall_forall. intros r (n & _ & Hn)%list_elem_of_omap.
  destruct n; simplify_eq/=; done.
Qed.

End ParserFacts.

(** * The indexing helpers, step by step *)

Module EngineFacts.
Import Ast Parser Engine Spec DictFacts ParserFacts.

Lemma outline_ind (P : OutlineNode.t → Prop) :
  (∀ d kids, Forall P kids → P (OutlineNode.mk d kids)) → ∀ n, P n.
Proof.
  intros step. fix IH 1. intros [d kids]. apply step.
  induction kids as [|k kids IHkids]; constructor; [apply IH|exact IHkids].
Qed.

Lemma node_all_app m a b : node_all m (a ++ b) = node_all (node_all m a) b.
Proof. apply foldl_app. Qed.

Lemma register_outline_node_spec n s :
  _register_outline_node n s
  = set_node_index (λ m, node_all m (outline_nodes n)) s.
Proof.
  revert s. induction n as [d kids IH] using outline_ind. intros s.
  rewrite outline_nodes_children. simpl.
  set (s1 := set_node_index _ s).
  assert (∀ s',
    (fix each (children : list OutlineNode.t) (self : LSPEngine)
         {struct children} : LSPEngine :=
       match children with
       | [] => self
       | child :: rest => each rest (_register_outline_node child self)
       end) kids s'
    = set_node_index (λ m, node_all m (kids ≫= outline_nodes)) s') as Hkids.
  { induction IH as [|k kids Hk _ IHkids]; intros s'.
    - by destruct s'.
    - rewrite IHkids, Hk, bind_cons. unfold set_node_index. simpl.
      by rewrite node_all_app. }
  rewrite Hkids. done.
Qed.

Lemma register_definitions_spec l s :
  foldl (λ s defn, _register_definition defn s) s l
  = set_symbols_by_simple_name (λ m, link_all m l)
      (set_symbol_index (λ d, store_all d l) s).
Proof.
  revert s. induction l as [|x l IH]; intros s; [by destruct s|].
  simpl. rewrite IH. done.
Qed.

Lemma register_references_spec l s :
  foldl (λ s ref, _register_reference ref s) s l
  = set_refs_by_symbol (λ m, file_all m l)
      (set_references (λ r, r ++ l) s).
Proof.
  revert s. induction l as [|x l IH]; intros s.
  - destruct s. unfold set_refs_by_symbol, set_references. simpl.
    by rewrite app_nil_r.
  - simpl. rewrite IH. unfold set_refs_by_symbol, set_references. simpl.
    by rewrite <- app_assoc.
Qed.

(** [_index_file] on a file that is new, exists and parses. *)
Lemma index_file_merges w p s node defs refs :
  p ∉ _indexed_files s →
  exists_ w p = true →
  parse_python_file w p (Some (project_root s)) = Ok (node, defs, refs) →
  _index_file w p s
  = Return () (indexed_with p node (Dict.values defs) refs s).
Proof.
  intros Hnew Hexists Hparse. unfold _index_file.
  rewrite bool_decide_eq_false_2 by done.
  rewrite Hexists, Hparse. simpl.
  rewrite register_references_spec, register_definitions_spec,
    register_outline_node_spec.
  done.
Qed.

(** The three ways [_index_file] can end. *)
Lemma index_file_cases w p s :
  (_index_file w p s = Return () s
   ∧ (p ∈ _indexed_files s ∨ exists_ w p = false))
  ∨ (∃ x, (_index_file w p s = Raise x s)
       ∧ (p ∉ _indexed_files s) ∧ exists_ w p = true
       ∧ parse_python_file w p (Some (project_root s)) = Err x)
  ∨ (∃ node defs refs,
       (_index_file w p s
        = Return () (indexed_with p node (Dict.values defs) refs s))
       ∧ (p ∉ _indexed_files s) ∧ exists_ w p = true
       ∧ parse_python_file w p (Some (project_root s))
         = Ok (node, defs, refs)).
Proof.
  destruct (decide (p ∈ _indexed_files s)) as [Hin|Hnew].
  { left. unfold _index_file. rewrite bool_decide_eq_true_2 by done. auto. }
  destruct (exists_ w p) eqn:Hexists.
  2:{ left. unfold _index_file. rewrite bool_decide_eq_false_2 by done.
      rewrite Hexists. auto. }
  destruct (parse_python_file w p (Some (project_root s)))
    as [[[node defs] refs]|x] eqn:Hparse.
  - right. right. exists node, defs, refs.
    split; [by apply index_file_merges|done].
  - right. left. exists x. unfold _index_file.
    rewrite bool_decide_eq_false_2 by done. by rewrite Hexists, Hparse.
Qed.

End EngineFacts.

(** * Every operation is a sequence of steps *)

Module StepFacts.
Import Ast Parser Engine Spec DictFacts ParserFacts EngineFacts.

Lemma index_file_steps w p s : steps w s (state_of (_index_file w p s)).
Proof.
  destruct (index_file_cases w p s)
    as [[-> _]|[(x & -> & _)|(node & defs & refs & -> & ? & ? & ?)]];
    simpl; [done|done|].
  apply rtc_once. by constructor.
Qed.

(** A loop over files whose body is [_index_file] followed by steps. *)
Lemma bind_steps {A B} w s (m : outcome A) (k : A → LSPEngine → outcome B) :
  steps w s (state_of m) →
  (∀ a s', steps w s' (state_of (k a s'))) →
  steps w s (state_of (bind m k)).
Proof.
  intros Hm Hk. destruct m as [a s'|x s']; simpl in *; [|done].
  etrans; [exact Hm|apply Hk].
Qed.

Lemma index_each_steps w paths s :
  steps w s (state_of (index_each w paths s)).
Proof.
  revert s. induction paths as [|p paths IH]; intros s; [done|].
  simpl. apply bind_steps; [apply index_file_steps|]. intros _ s'. apply IH.
Qed.

Lemma scan_steps w symbol paths s :
  steps w s (state_of (scan w symbol paths s)).
Proof.
  revert s. induction paths as [|p paths IH]; intros s; [done|].
  simpl. apply bind_steps; [apply index_file_steps|]. intros _ s'.
  destruct (resolves s' symbol); [done|apply IH].
Qed.

Lemma ensure_symbol_steps w symbol s :
  steps w s (state_of (_ensure_symbol_indexed w symbol s)).
Proof.
  unfold _ensure_symbol_indexed.
  destruct (resolves s symbol); [done|].
  destruct (negb _); [done|apply scan_steps].
Qed.

Lemma ensure_file_steps w p s :
  steps w s (state_of (_ensure_file_indexed w p s)).
Proof.
  unfold _ensure_file_indexed.
  case_bool_decide as Hnew; [|done].
  case_bool_decide as Hfresh; [|apply index_file_steps].
  etrans; [apply rtc_once, (step_discover w p s); done|].
  apply index_file_steps.
Qed.

Lemma find_definition_steps w symbol file_path s :
  steps w s (state_of (find_definition w symbol file_path s)).
Proof.
  unfold find_definition. destruct symbol as [symbol|].
  - apply bind_steps; [apply ensure_symbol_steps|]. intros _ s'.
    destruct (_resolve_symbol_qualified_name s' symbol) as [[q|]|]; done.
  - destruct file_path as [path|]; [|done].
    apply bind_steps; [apply ensure_file_steps|]. by intros _ s'.
Qed.

Lemma after_steps w c s : steps w s (after w c s).
Proof.
  destruct c as [symbol file_path k|symbol file_path k|symbol file_path k
                |symbol file_path k|nm kd th file_path n k]; simpl.
  - apply bind_steps; [apply find_definition_steps|]. by intros d s'.
  - apply bind_steps; [apply find_definition_steps|]. by intros d s'.
  - unfold get_outline. destruct symbol as [symbol|].
    + apply bind_steps; [apply ensure_symbol_steps|]. intros _ s'.
      destruct (_resolve_symbol_qualified_name s' symbol) as [[q|]|];
        [|done|done].
      by destruct (_node_index s' !! q).
    + destruct file_path as [path|]; [|done].
      apply bind_steps; [apply ensure_file_steps|]. intros _ s'.
      by destruct (outline_index s' !! path).
  - unfold get_references. destruct symbol as [symbol|].
    + apply bind_steps; [apply ensure_symbol_steps|]. by intros _ s'.
    + destruct file_path as [path|]; [|done].
      apply bind_steps; [apply ensure_file_steps|]. by intros _ s'.
  - unfold filter_symbols. destruct file_path as [path|]; [|done].
    apply bind_steps; [apply ensure_file_steps|]. by intros _ s'.
Qed.

(** Discovery fills the file list and leaves the index maps empty. *)
Lemma discover_files_spec w s :
  _discover_files w s
  = set_total_bytes
      (λ _, foldl (λ t p, t + default 0 (stat_size w p)) 0
              (rglob_py w (project_root s)))
      (set_file_sizes (λ _, sizes_of w (rglob_py w (project_root s)))
         (set_all_files (λ _, rglob_py w (project_root s)) s)).
Proof.
  unfold _discover_files, sizes_of.
  generalize (rglob_py w (project_root s)). intros paths.
  assert (∀ t l (m : gmap Path Z),
    foldl (λ '(total_bytes, all_files, file_sizes) path,
             (total_bytes + default 0 (stat_size w path),
              all_files ++ [path],
              <[path := default 0 (stat_size w path)]> file_sizes))
      (t, l, m) paths
    = (foldl (λ t p, t + default 0 (stat_size w p)) t paths,
       l ++ paths,
       foldl (λ m p, <[p := default 0 (stat_size w p)]> m) m paths)) as H.
  { induction paths as [|p paths IH]; intros t l m; simpl.
    - by rewrite app_nil_r.
    - rewrite IH. by rewrite <- app_assoc. }
  rewrite H. done.
Qed.

Lemma init_steps w root max_files max_bytes :
  steps w (_discover_files w (fresh root max_files max_bytes))
    (state_of (init w root max_files max_bytes)).
Proof.
  unfold init, _initial_index. destruct (negb _); [done|].
  apply index_each_steps.
Qed.

End StepFacts.

(** * Invariants of the index maps *)

Module Invariants.
Import Ast Parser Engine Spec DictFacts ParserFacts EngineFacts StepFacts.

Lemma setdefault_append_lookup {V} (m : gmap str (list V)) k x n :
  setdefault_append k x m !! n
  = if decide (k = n) then Some (default [] (m !! n) ++ [x]) else m !! n.
Proof.
  unfold setdefault_append. case_decide as Hk.
  - subst. by rewrite lookup_insert_eq.
  - by rewrite lookup_insert_ne.
Qed.

(** The collision list of a name after a file is merged: the list there
    was, then the new qualified names in the order of registration. *)
Lemma link_all_lookup m l n :
  link_all m l !! n
  = let add := SymbolDefinition.qualified_name
                 <$> filter (λ x, SymbolDefinition.name x = n) l in
    if decide (add = []) then m !! n
    else Some (default [] (m !! n) ++ add).
Proof.
  revert m. induction l as [|x l IH]; intros m; [done|].
  change (link_all m (x :: l))
    with (link_all (setdefault_append (SymbolDefinition.name x)
                      (SymbolDefinition.qualified_name x) m) l).
  rewrite IH. clear IH. simpl. rewrite setdefault_append_lookup.
  rewrite filter_cons.
  destruct (decide (SymbolDefinition.name x = n)) as [Hx|Hx].
  - rewrite fmap_cons. rewrite (decide_False (P := _ :: _ = [])) by done.
    case_decide as Hadd.
    + by rewrite Hadd.
    + simpl. by rewrite <- app_assoc.
  - done.
Qed.

Lemma link_all_elem m l n names q :
  link_all m l !! n = Some names → q ∈ names →
  (∃ old, m !! n = Some old ∧ q ∈ old)
  ∨ (∃ x, x ∈ l ∧ SymbolDefinition.name x = n
          ∧ SymbolDefinition.qualified_name x = q).
Proof.
  rewrite link_all_lookup. simpl. case_decide as Hadd.
  - intros Hm Hq. left. eauto.
  - intros [= <-] [Hq|Hq]%elem_of_app.
    + left. destruct (m !! n) as [old|]; [eauto|].
      by apply elem_of_nil in Hq.
    + right. apply list_elem_of_fmap in Hq as (x & -> & Hx).
      apply list_elem_of_filter in Hx as [Hn Hx]. eauto.
Qed.

Lemma link_all_keeps m l n old q :
  m !! n = Some old → q ∈ old →
  ∃ names, link_all m l !! n = Some names ∧ q ∈ names.
Proof.
  intros Hm Hq. rewrite link_all_lookup. simpl. case_decide.
  - eauto.
  - eexists. split; [done|]. rewrite Hm. simpl. apply elem_of_app. by left.
Qed.

Lemma link_all_links m l x :
  x ∈ l →
  ∃ names, link_all m l !! SymbolDefinition.name x = Some names
           ∧ SymbolDefinition.qualified_name x ∈ names.
Proof.
  intros Hx. rewrite link_all_lookup. simpl.
  assert (SymbolDefinition.qualified_name x
          ∈ SymbolDefinition.qualified_name
              <$> filter (λ y, SymbolDefinition.name y
                               = SymbolDefinition.name x) l) as Hin.
  { apply list_elem_of_fmap_2. by apply list_elem_of_filter. }
  case_decide as Hadd.
  - rewrite Hadd in Hin. by apply elem_of_nil in Hin.
  - eexists. split; [done|]. apply elem_of_app. by right.
Qed.


Lemma node_all_lookup m l q node :
  node_all m l !! q = Some node →
  m !! q = Some node
  ∨ (node ∈ l
     ∧ SymbolDefinition.qualified_name (OutlineNode.symbol node) = q).
Proof.
  revert m. induction l as [|x l IH]; intros m; simpl; [by left|].
  intros [Hm|[Hin Hq]]%IH.
  - destruct (decide
      (SymbolDefinition.qualified_name (OutlineNode.symbol x) = q))
      as [Hx|Hx].
    + rewrite <- Hx, lookup_insert_eq in Hm. injection Hm as ->.
      right. split; [left|done].
    + rewrite lookup_insert_ne in Hm by done. by left.
  - right. split; [by right|done].
Qed.

(** What a parse result stores covers its outline, and lies in the
    file. *)
Lemma symbols_of_single node :
  symbols_of [node] = OutlineNode.symbol <$> outline_nodes node.
Proof. unfold symbols_of. simpl. by rewrite app_nil_r. Qed.


Lemma parsed_nodes_defined w p root node defs refs n :
  parse_python_file w p root = Ok (node, defs, refs) →
  n ∈ outline_nodes node →
  ∃ v, v ∈ Dict.values defs
       ∧ SymbolDefinition.qualified_name v
         = SymbolDefinition.qualified_name (OutlineNode.symbol n).
Proof.
  intros (text & tree & kids & _ & _ & _ & -> & _)%parse_python_file_inv Hn.
  assert (OutlineNode.symbol n ∈ symbols_of [node]) as Hx.
  { rewrite symbols_of_single. by apply list_elem_of_fmap_2. }
  destruct (store_all_stores [] _ _ Hx) as [v Hv].
  apply get_Some_elem in Hv. exists v. split.
  - apply elem_values. eauto.
  - apply store_all_elem in Hv as [?%elem_of_nil|[_ ?]]; done.
Qed.

(** Any property that holds once the files are discovered and that every
    step keeps holds of every engine. *)
Lemma reachable_invariant (W : World → Prop) (I : LSPEngine → Prop) :
  (∀ w root max_files max_bytes,
      W w → I (_discover_files w (fresh root max_files max_bytes))) →
  (∀ w s s', W w → step w s s' → I s → I s') →
  ∀ s, reachable W s → I s.
Proof.
  intros Hinit Hstep.
  assert (∀ w s s', W w → steps w s s' → I s → I s') as Hsteps.
  { intros w s s' Hw. induction 1; eauto. }
  induction 1 as [w root mf mb s Hw Hs|w c s Hw _ IH].
  - pose proof (init_steps w root mf mb) as H. rewrite Hs in H.
    eapply Hsteps; eauto.
  - eapply Hsteps; eauto using after_steps.
Qed.

End Invariants.

(** * The invariants hold of every engine *)

Module Preserved.
Import Ast Parser Engine Spec DictFacts ParserFacts EngineFacts StepFacts.
Import Invariants.

Lemma discovered_empty w root max_files max_bytes :
  let s := _discover_files w (fresh root max_files max_bytes) in
  outline_index s = ∅ ∧ symbol_index s = []
  ∧ _symbols_by_simple_name s = ∅ ∧ references s = []
  ∧ _node_index s = ∅ ∧ _indexed_files s = ∅
  ∧ project_root s = root.
Proof. rewrite discover_files_spec. by repeat split. Qed.

Lemma step_consistent w s s' :
  step w s s' → consistent s → consistent s'.
Proof.
  intros Hstep [Hnames Hnodes].
  destruct Hstep as [p node defs refs s Hnew Hexists Hparse|p s]; [|done].
  split; simpl.
  - intros n names q Hn Hq.
    destruct (link_all_elem _ _ _ _ _ Hn Hq)
      as [(old & Hold & Hin)|(x & Hx & _ & <-)].
    + apply store_all_keeps. eauto.
    + by apply store_all_stores.
  - intros q n [Hold|[Hin <-]]%node_all_lookup.
    + apply store_all_keeps. eauto.
    + destruct (parsed_nodes_defined _ _ _ _ _ _ _ Hparse Hin)
        as (v & Hv & <-).
      by apply store_all_stores.
Qed.


Lemma step_project_root w s s' :
  step w s s' → project_root s' = project_root s.
Proof. by destruct 1. Qed.

Lemma definitions_of_parsed w root p node defs refs :
  parse_python_file w p (Some root) = Ok (node, defs, refs) →
  definitions_of w root p = Dict.values defs.
Proof. unfold definitions_of. by intros ->. Qed.

Lemma references_of_parsed w root p node defs refs :
  parse_python_file w p (Some root) = Ok (node, defs, refs) →
  references_of w root p = refs.
Proof. unfold references_of. by intros ->. Qed.

Lemma parsed_references w p root node defs refs q :
  parse_python_file w p root = Ok (node, defs, refs) →
  filter (λ r, SymbolReference.file_path r = q) refs
  = if decide (q = p) then refs else [].
Proof.
  intros (text & tree & kids & _ & _ & _ & _ & _ & -> & _)
    %parse_python_file_inv.
  pose proof (references_in_file p text (walk tree)) as Hall.
  induction Hall as [|r refs Hr _ IH]; [by case_decide|].
  rewrite filter_cons, IH. repeat case_decide; congruence.
Qed.

Lemma step_sound w s s' : step w s s' → sound w s → sound w s'.
Proof.
  intros Hstep Hs.
  destruct Hstep as [p0 node defs refs s Hnew Hexists Hparse|p0 s];
    [|by destruct Hs].
  destruct Hs as [Hindexed Houtline Hsymbols Hnames Hrefs].
  split; simpl.
  - intros p [Hp| ->%elem_of_singleton]%elem_of_union.
    + destruct (Hindexed p Hp) as (n & ds & rs & Hp' & Ho & Hds).
      exists n, ds, rs. split; [done|]. split.
      { rewrite lookup_insert_ne; [done|]. intros ->. done. }
      intros d [Hd (names & Hn & Hq)]%Hds. split.
      * by apply store_all_keeps.
      * eapply link_all_keeps; eauto.
    + exists node, defs, refs. split; [done|]. split.
      { by rewrite lookup_insert_eq. }
      intros d Hd. split.
      * by apply store_all_stores.
      * by apply link_all_links.
  - intros p n. destruct (decide (p0 = p)) as [->|Hne].
    + intros _. apply elem_of_union. right. by apply elem_of_singleton.
    + rewrite lookup_insert_ne by done. intros ?%Houtline.
      apply elem_of_union. by left.
  - intros q d [Hold|[Hd Hq]]%store_all_get.
    + destruct (Hsymbols q d Hold) as (? & p & Hp & Hdp).
      split; [done|]. exists p. split; [|done].
      apply elem_of_union. by left.
    + split; [done|]. exists p0. split.
      * apply elem_of_union. right. by apply elem_of_singleton.
      * by rewrite (definitions_of_parsed _ _ _ _ _ _ Hparse).
  - intros n names q Hn Hq.
    destruct (link_all_elem _ _ _ _ _ Hn Hq)
      as [(old & Hold & Hin)|(x & Hx & Hname & Hqual)].
    + destruct (Hnames n old q Hold Hin) as (d & p & Hp & Hd).
      exists d, p. split; [|done]. apply elem_of_union. by left.
    + exists x, p0. split.
      { apply elem_of_union. right. by apply elem_of_singleton. }
      by rewrite (definitions_of_parsed _ _ _ _ _ _ Hparse).
  - intros p. rewrite filter_app, Hrefs.
    rewrite (parsed_references _ _ _ _ _ _ p Hparse).
    destruct (decide (p = p0)) as [->|Hne].
    + rewrite decide_False by done.
      rewrite (references_of_parsed _ _ _ _ _ _ Hparse).
      rewrite decide_True; [done|].
      apply elem_of_union. right. by apply elem_of_singleton.
    + rewrite app_nil_r.
      destruct (decide (p ∈ _indexed_files s)) as [Hp|Hp].
      * rewrite decide_True; [done|]. apply elem_of_union. by left.
      * rewrite decide_False; [done|].
        intros [?| ?%elem_of_singleton]%elem_of_union; done.
Qed.

Lemma reachable_consistent W s : reachable W s → consistent s.
Proof.
  apply reachable_invariant.
  - intros w root mf mb _.
    destruct (discovered_empty w root mf mb)
      as (_ & _ & Hnames & _ & Hnodes & _).
    split.
    + intros n names q. by rewrite Hnames, lookup_empty.
    + intros q n. by rewrite Hnodes, lookup_empty.
  - intros w s1 s2 _. apply step_consistent.
Qed.


Lemma reachable_sound w s : reachable (eq w) s → sound w s.
Proof.
  apply reachable_invariant.
  - intros ? root mf mb <-.
    destruct (discovered_empty w root mf mb)
      as (Ho & Hs & Hn & Hr & _ & Hi & _).
    split.
    + intros p. rewrite Hi. by intros ?%elem_of_empty.
    + intros p n. by rewrite Ho, lookup_empty.
    + intros q d. by rewrite Hs.
    + intros n names q. by rewrite Hn, lookup_empty.
    + intros p. rewrite Hr, Hi.
      rewrite decide_False; [done|]. by intros ?%elem_of_empty.
  - intros ? s1 s2 <-. apply step_sound.
Qed.

End Preserved.

(** * The properties of the engine *)

Import Ast Parser Engine Spec.
Import PyFacts Dotted DictFacts AstFacts ParserFacts EngineFacts StepFacts.
Import Invariants Preserved.

(** ** Cross-consistency of the index maps *)

(** C10. After the engine is constructed and after every public operation,
    returned or raised, in whatever world each of them ran: every qualified
    name in a list of the collision table is a key of the symbol table, and
    so is every key of the outline-node index. Hence a name that
    [_resolve_symbol_qualified_name] resolves has a definition to
    retrieve. *)
Theorem index_maps_cross_consistent (W : World → Prop) (s : LSPEngine) :
  reachable W s →
  (∀ name names q,
      _symbols_by_simple_name s !! name = Some names → q ∈ names →
      is_Some (Dict.get (symbol_index s) q))
  ∧ (∀ q node,
      _node_index s !! q = Some node →
      is_Some (Dict.get (symbol_index s) q))
  ∧ (∀ symbol q,
      _resolve_symbol_qualified_name s symbol = Ok (Some q) →
      is_Some (Dict.get (symbol_index s) q)).
Proof.
  intros Hs. destruct (reachable_consistent W s Hs) as [Hnames Hnodes].
  split; [exact Hnames|]. split; [exact Hnodes|].
  intros symbol q. unfold _resolve_symbol_qualified_name.
  destruct (Dict.mem (symbol_index s) symbol) eqn:Hmem.
  - intros [= <-]. by apply mem_spec.
  - destruct (_symbols_by_simple_name s !! symbol) as [names|] eqn:Hn; [|done].
    destruct names as [|first rest]; [done|].
    intros [= <-]. apply (Hnames symbol (first :: rest)); [done|left].
Qed.

Lemma init_returns_state w root max_files max_bytes :
  (∃ s, init w root max_files max_bytes = Return () s) →
  init w root max_files max_bytes
  = Return () (state_of (init w root max_files max_bytes)).
Proof. intros [s ->]. done. Qed.


Lemma project_engine_reachable :
  reachable (eq Demo.project) Demo.project_engine.
Proof.
  eapply (reachable_init _ Demo.project Demo.root 10 10000); [done|].
  apply init_returns_state. vm_compute. eauto.
Defined.

Lemma lazy_engine_reachable :
  reachable (eq Demo.project) Demo.lazy_engine.
Proof.
  eapply (reachable_init _ Demo.project Demo.root 0 0); [done|].
  apply init_returns_state. vm_compute. eauto.
Defined.

(** The invariant at work: the lazily built engine after a query that
    indexed files on demand. *)
Lemma index_maps_cross_consistent_witness :
  let s := after Demo.project
             (GetOutline (Some (lit "MyClass")) None 1000) Demo.lazy_engine in
  reachable (eq Demo.project) s
  ∧ (∀ name names q,
        _symbols_by_simple_name s !! name = Some names → q ∈ names →
        is_Some (Dict.get (symbol_index s) q))
  ∧ (∀ q node,
        _node_index s !! q = Some node →
        is_Some (Dict.get (symbol_index s) q))
  ∧ (∀ symbol q,
        _resolve_symbol_qualified_name s symbol = Ok (Some q) →
        is_Some (Dict.get (symbol_index s) q)).
Proof.
  intros s.
  assert (reachable (eq Demo.project) s) as Hs.
  { apply reachable_call; [done|exact lazy_engine_reachable]. }
  split; [exact Hs|].
  exact (index_maps_cross_consistent (eq Demo.project) s Hs).
Defined.

(** ** Precedence of the symbol argument *)

(** C8. In [get_definition_short] a symbol that is given decides the
    answer whatever file path comes with it: the call equals the one
    without the file path, and a symbol that does not resolve gives [None]
    rather than the module of the file. With neither argument the result
    is [None], returned and not raised, and the engine is untouched. *)
Theorem symbol_takes_precedence (w : World) (s : LSPEngine) (symbol : str)
    (file_path : option Path) (k : Z) :
  get_definition_short w (Some symbol) file_path k s
  = get_definition_short w (Some symbol) None k s
  ∧ (∀ s',
      _ensure_symbol_indexed w symbol s = Return () s' →
      _resolve_symbol_qualified_name s' symbol = Ok None →
      get_definition_short w (Some symbol) file_path k s = Return None s')
  ∧ get_definition_short w None None k s = Return None s
  ∧ get_definition_full w None None k s = Return None s.
Proof.
  split; [done|]. split; [|done].
  intros s' Hensure Hresolve.
  unfold get_definition_short, find_definition.
  rewrite Hensure. simpl. by rewrite Hresolve.
Qed.

(** A symbol that does not resolve, given with the path of an indexed
    file: the answer is [None], not the module of the file. *)
Example unresolved_symbol_ignores_file :
  ∃ s',
    get_definition_short Demo.project (Some (lit "nothing"))
      (Some Demo.file_main) 1000 Demo.project_engine = Return None s'
    ∧ is_Some (outline_index s' !! Demo.file_main).
Proof. eexists. split; [vm_compute; reflexivity|]. vm_compute. eauto. Qed.

(** ** Indexing a file twice *)

(** C7. Indexing a path a second time ends as the first time did and
    leaves the engine, with all its index maps, as the first indexing left
    it. Indexing is a no-op when the path is already indexed, in any
    world, and when the file does not exist; and a file that was indexed
    stays indexed, so that no later call parses it again. *)
Theorem index_file_idempotent (w : World) (p : Path) (s : LSPEngine) :
  _index_file w p (state_of (_index_file w p s)) = _index_file w p s
  ∧ (∀ w', p ∈ _indexed_files s → _index_file w' p s = Return () s)
  ∧ (exists_ w p = false → _index_file w p s = Return () s)
  ∧ (∀ s' w',
      _index_file w p s = Return () s' → exists_ w p = true →
      p ∈ _indexed_files s' ∧ _index_file w' p s' = Return () s').
Proof.
  assert (∀ w' s0, p ∈ _indexed_files s0 → _index_file w' p s0 = Return () s0)
    as Hdone.
  { intros w' s0 Hin. unfold _index_file.
    by rewrite bool_decide_eq_true_2. }
  assert (∀ node defs refs,
            p ∈ _indexed_files (indexed_with p node defs refs s)) as Hnow.
  { intros. simpl. apply elem_of_union. right. by apply elem_of_singleton. }
  destruct (index_file_cases w p s)
    as [[Hsame Hwhy]
       |[(x & Hraise & Hnew & Hexists & Hparse)
        |(node & defs & refs & Hmerge & Hnew & Hexists & Hparse)]].
  - rewrite Hsame. simpl. split; [done|]. split; [auto|]. split; [done|].
    intros s' w' [= <-] Hexists. destruct Hwhy as [Hin|?]; [|congruence].
    auto.
  - rewrite Hraise. simpl. split; [done|]. split; [auto|].
    split; [congruence|]. intros s' w' [=].
  - rewrite Hmerge. simpl. split; [by rewrite Hdone|]. split; [auto|].
    split; [congruence|]. intros s' w' [= <-] _. split; auto.
Qed.

(** ** Truncated output *)

Lemma marker_lengths : len ellipsis = 1 ∧ len truncated_marker = 13.
Proof. done. Qed.








Example truncated_docstring :
  ∃ r s',
    get_definition_short Demo.project (Some (lit "MyClass")) None 10
      Demo.project_engine = Return (Some r) s'
    ∧ Short.docstring r = Some (lit "This is My" ++ ellipsis)
    ∧ Short.init_docstring r = Some (lit "Initialise" ++ ellipsis).
Proof. eexists _, _. split; [vm_compute; reflexivity|]. by vm_compute. Qed.

(** ** A file that does not parse *)

(** C1, as the specification states it, fails: the engine built over a
    project with one file that does not parse is not constructed, the
    parser's error leaves [__init__]; and the file that does parse, next in
    line, is never indexed. *)
Lemma parse_failure_aborts_construction :
  ∃ s, init Demo.broken Demo.root 200 5000000 = Raise SyntaxError s
       ∧ _all_files s = [Demo.file_bad; Demo.file_good]
       ∧ parses Demo.broken Demo.root Demo.file_good
       ∧ Demo.file_good ∉ _indexed_files s.
Proof.
  eexists. split; [vm_compute; reflexivity|].
  split; [by vm_compute|]. split.
  - eexists. vm_compute. reflexivity.
  - vm_compute. intros H. discriminate H.
Qed.

Lemma index_each_raises w p x rest s :
  _index_file w p s = Raise x s → index_each w (p :: rest) s = Raise x s.
Proof. simpl. by intros ->. Qed.

(** C1, amended. Indexing a file whose content cannot be parsed raises the
    parser's error to the caller and leaves the engine exactly as it was:
    the file stays discovered and not indexed, and nothing indexed before is
    touched. The engine does not catch the error: the pass over the files
    that reached the bad file ends there, in construction and in the scan
    for a symbol alike, and a query on that file raises as well. *)
Theorem parse_failure_propagates (w : World) (p : Path) (x : exn)
    (s : LSPEngine) :
  p ∉ _indexed_files s →
  exists_ w p = true →
  parse_python_file w p (Some (project_root s)) = Err x →
  _index_file w p s = Raise x s
  ∧ (∀ rest, index_each w (p :: rest) s = Raise x s)
  ∧ (∀ symbol rest, scan w symbol (p :: rest) s = Raise x s)
  ∧ (∀ k, p ∈ _all_files s →
       get_references w None (Some p) k s = Raise x s
       ∧ get_definition_short w None (Some p) k s = Raise x s).
Proof.
  intros Hnew Hexists Hparse.
  assert (_index_file w p s = Raise x s) as Hraise.
  { unfold _index_file. rewrite bool_decide_eq_false_2 by done.
    by rewrite Hexists, Hparse. }
  split; [done|]. split; [|split].
  - intros rest. by apply index_each_raises.
  - intros symbol rest. simpl. by rewrite Hraise.
  - intros k Hin.
    assert (_ensure_file_indexed w p s = Raise x s) as Hensure.
    { unfold _ensure_file_indexed.
      rewrite bool_decide_eq_true_2 by done.
      by rewrite bool_decide_eq_false_2 by (by intros ?). }
    unfold get_references, get_definition_short, find_definition.
    by rewrite Hensure.
Qed.

Lemma parse_failure_propagates_witness :
  let s := _discover_files Demo.broken (fresh Demo.root 200 5000000) in
  (Demo.file_bad ∉ _indexed_files s)
  ∧ exists_ Demo.broken Demo.file_bad = true
  ∧ parse_python_file Demo.broken Demo.file_bad (Some (project_root s))
    = Err SyntaxError
  ∧ _index_file Demo.broken Demo.file_bad s = Raise SyntaxError s.
Proof.
  intros s.
  assert (Demo.file_bad ∉ _indexed_files s) as Hnew.
  { vm_compute. intros H. discriminate H. }
  assert (exists_ Demo.broken Demo.file_bad = true) as Hexists
    by (vm_compute; reflexivity).
  assert (parse_python_file Demo.broken Demo.file_bad (Some (project_root s))
          = Err SyntaxError) as Hparse by (vm_compute; reflexivity).
  split; [exact Hnew|]. split; [exact Hexists|]. split; [exact Hparse|].
  exact (proj1 (parse_failure_propagates Demo.broken Demo.file_bad
                  SyntaxError s Hnew Hexists Hparse)).
Defined.

(** ** References of a file *)

Lemma steps_sound w s s' : steps w s s' → sound w s → sound w s'.
Proof. induction 1; eauto using step_sound. Qed.

Lemma steps_project_root w s s' :
  steps w s s' → project_root s' = project_root s.
Proof.
  induction 1 as [|s1 s2 s3 Hstep _ IH]; [done|].
  by rewrite IH, (step_project_root _ _ _ Hstep).
Qed.


Lemma parse_of_text w p root text tree :
  read_text w p = Ok text → ast_parse w text = Ok tree →
  ∃ node defs,
    parse_python_file w p root
    = Ok (node, defs, omap (reference_of p text) (walk tree)).
Proof.
  intros Hread Htree. unfold parse_python_file. rewrite Hread, Htree.
  destruct (walk_body _ _ _ _) as [children defs]. eauto.
Qed.

(** [_ensure_file_indexed] on a file that exists and parses: it returns,
    and the file is indexed. *)
Lemma ensure_file_indexed_returns w p s :
  p ∈ _indexed_files s
  ∨ (exists_ w p = true ∧ parses w (project_root s) p) →
  ∃ s', _ensure_file_indexed w p s = Return () s'
        ∧ p ∈ _indexed_files s'.
Proof.
  intros Hp. unfold _ensure_file_indexed.
  destruct (decide (p ∈ _indexed_files s)) as [Hin|Hnew].
  { rewrite bool_decide_eq_false_2 by (by intros ?). eauto. }
  destruct Hp as [?|[Hexists [[[node defs] refs] Hparse]]]; [done|].
  rewrite bool_decide_eq_true_2 by done.
  assert (∀ s1,
    _indexed_files s1 = _indexed_files s →
    project_root s1 = project_root s →
    ∃ s', _index_file w p s1 = Return () s' ∧ p ∈ _indexed_files s')
    as Hindex.
  { intros s1 Hsame Hroot.
    eexists. split.
    - apply index_file_merges; [by rewrite Hsame|done|].
      rewrite Hroot. exact Hparse.
    - simpl. apply elem_of_union. right. by apply elem_of_singleton. }
  case_bool_decide; by apply Hindex.
Qed.

(** C9. In a world that does not change, for a file that is indexed, or
    that exists, and whose text parses to a tree with [N] name occurrences:
    [get_references] with that file path returns exactly [N] entries, each
    with the queried path as its file path. They are the references of the
    full list whose owning file is the path, in order, each reduced to its
    symbol, file path, line and column: the entry has no field for the
    context. *)
Theorem references_filtered_by_file (w : World) (s : LSPEngine) (p : Path)
    (text : str) (tree : Module_) (k : Z) :
  reachable (eq w) s →
  read_text w p = Ok text →
  ast_parse w text = Ok tree →
  p ∈ _indexed_files s ∨ exists_ w p = true →
  ∃ out s',
    get_references w None (Some p) k s = Return out s'
    ∧ length out = name_occurrences tree
    ∧ Forall (λ entry, Reference.file_path entry = p) out
    ∧ out
      = (λ ref, Reference.mk (SymbolReference.symbol ref)
                  (SymbolReference.file_path ref) (SymbolReference.line ref)
                  (SymbolReference.column ref))
          <$> filter (λ ref, SymbolReference.file_path ref = p)
                (references s').
Proof.
  intros Hs Hread Htree Hp.
  destruct (parse_of_text w p (Some (project_root s)) text tree Hread Htree)
    as (node & defs & Hparse).
  destruct (ensure_file_indexed_returns w p s) as (s' & Hensure & Hin).
  { destruct Hp as [?|?]; [by left|]. right. split; [done|]. by eexists. }
  pose proof (ensure_file_steps w p s) as Hsteps.
  rewrite Hensure in Hsteps. simpl in Hsteps.
  assert (sound w s') as Hsound
    by (eapply steps_sound; [done|by apply reachable_sound]).
  pose proof (sound_references w s' Hsound p) as Hrefs.
  rewrite decide_True in Hrefs by done.
  rewrite (steps_project_root _ _ _ Hsteps) in Hrefs.
  rewrite (references_of_parsed _ _ _ _ _ _ Hparse) in Hrefs.
  eexists _, s'. split.
  { unfold get_references. rewrite Hensure. reflexivity. }
  rewrite Hrefs. split; [|split; [|done]].
  - rewrite length_fmap, length_references. apply names_of_walk.
  - apply Forall_fmap. eapply Forall_impl; [apply references_in_file|].
    by intros ref.
Qed.

(** [main.py] of the demonstration project holds four name occurrences. *)
Lemma references_filtered_by_file_witness :
  reachable (eq Demo.project) Demo.lazy_engine
  ∧ read_text Demo.project Demo.file_main = Ok Demo.text_main
  ∧ ast_parse Demo.project Demo.text_main = Ok Demo.tree_main
  ∧ exists_ Demo.project Demo.file_main = true
  ∧ name_occurrences Demo.tree_main = 4%nat
  ∧ ∃ out s',
      get_references Demo.project None (Some Demo.file_main) 300
        Demo.lazy_engine = Return out s'
      ∧ length out = name_occurrences Demo.tree_main.
Proof.
  assert (read_text Demo.project Demo.file_main = Ok Demo.text_main) as Hread
    by (vm_compute; reflexivity).
  assert (ast_parse Demo.project Demo.text_main = Ok Demo.tree_main) as Htree
    by (vm_compute; reflexivity).
  assert (exists_ Demo.project Demo.file_main = true) as Hexists
    by (vm_compute; reflexivity).
  split; [exact lazy_engine_reachable|]. split; [exact Hread|].
  split; [exact Htree|]. split; [exact Hexists|]. split; [reflexivity|].
  destruct (references_filtered_by_file Demo.project Demo.lazy_engine
              Demo.file_main Demo.text_main Demo.tree_main 300
              lazy_engine_reachable Hread Htree (or_intror Hexists))
    as (out & s' & Hout & Hlen & _).
  exists out, s'. split; [exact Hout|exact Hlen].
Defined.

(** ** The lazy scan for a symbol *)

Lemma score_eq w s symbol path :
  score w s symbol path = (group w symbol path, size_of s path).
Proof. done. Qed.

(** The loop indexes a prefix of the files it is given, one at a time, and
    stops at the first file after which the symbol resolves, or at the
    file that raises. *)
Lemma scan_prefix w symbol paths s :
  resolves s symbol = false →
  ∃ visited rest,
    paths = visited ++ rest
    ∧ scan w symbol paths s = index_each w visited s
    ∧ (∀ n s', (n < length visited)%nat →
         index_each w (take n visited) s = Return () s' →
         resolves s' symbol = false)
    ∧ (∀ s', index_each w visited s = Return () s' →
         rest = [] ∨ resolves s' symbol = true).
Proof.
  revert s. induction paths as [|p paths IH]; intros s Hs.
  { exists [], []. repeat split; [|by left]. intros n s' Hn. simpl in Hn. lia. }
  simpl. destruct (_index_file w p s) as [[] s1|x s1] eqn:Hp; simpl.
  - destruct (resolves s1 symbol) eqn:Hs1.
    + exists [p], paths. split; [done|]. simpl. rewrite Hp. simpl.
      split; [done|]. split.
      * intros n s' Hn. assert (n = 0%nat) as -> by lia.
        simpl. by intros [= <-].
      * intros s' [= <-]. by right.
    + destruct (IH s1 Hs1) as (visited & rest & -> & Hscan & Hbefore & Hlast).
      exists (p :: visited), rest. split; [done|]. simpl. rewrite Hp. simpl.
      split; [done|]. split; [|done].
      intros [|n] s' Hn; simpl.
      * by intros [= <-].
      * rewrite Hp. simpl. apply Hbefore. lia.
  - exists [p], paths. split; [done|]. simpl. rewrite Hp. simpl.
    split; [done|]. split; [|done].
    intros n s' Hn. assert (n = 0%nat) as -> by lia.
    simpl. by intros [= <-].
Qed.

(** C5. [_ensure_symbol_indexed] indexes nothing when the name already
    resolves through the symbol table or the collision table. Otherwise
    the files it may index are the discovered files not yet indexed, put in
    the order of the two-key sort: group 0, the files whose stem contains
    the name as a case-insensitive substring, before group 1, and ascending
    size within a group. It indexes a prefix of that order, one file at a
    time: the name resolves after none of the files but the last of the
    prefix, and when the scan returns with files left over, the name
    resolves. *)
Theorem ensure_symbol_indexed_scan (w : World) (symbol : str) (s : LSPEngine) :
  (resolves s symbol = true → _ensure_symbol_indexed w symbol s = Return () s)
  ∧ (resolves s symbol = false →
     let order := scan_order w s symbol in
     order ≡ₚ filter (λ p, p ∉ _indexed_files s) (_all_files s)
     ∧ StronglySorted
         (λ a b,
            group w symbol a < group w symbol b
            ∨ (group w symbol a = group w symbol b
               ∧ size_of s a ≤ size_of s b))
         order
     ∧ ∃ visited rest,
         order = visited ++ rest
         ∧ _ensure_symbol_indexed w symbol s = index_each w visited s
         ∧ (∀ n s', (n < length visited)%nat →
              index_each w (take n visited) s = Return () s' →
              resolves s' symbol = false)
         ∧ (∀ s', index_each w visited s = Return () s' →
              rest = [] ∨ resolves s' symbol = true)).
Proof.
  split.
  { intros Hs. unfold _ensure_symbol_indexed. by rewrite Hs. }
  intros Hs order. split; [apply sorted_perm|]. split.
  { pose proof (sorted_ascending pair_leb (score w s symbol)
                  pair_leb_total pair_leb_trans (remaining s)) as Hsorted.
    eapply StronglySorted_weaken; [|exact Hsorted].
    intros a b Hab. by apply pair_leb_spec in Hab. }
  destruct (scan_prefix w symbol order s Hs)
    as (visited & rest & Horder & Hscan & Hbefore & Hlast).
  exists visited, rest. split; [done|]. split; [|done].
  unfold _ensure_symbol_indexed. rewrite Hs.
  destruct (remaining s) as [|p ps] eqn:Hremaining; simpl.
  - unfold order, scan_order in Horder. rewrite Hremaining in Horder.
    simpl in Horder. symmetry in Horder.
    apply app_eq_nil in Horder as [-> _]. done.
  - exact Hscan.
Qed.

(** In the demonstration project, nothing indexed: the file whose stem
    holds the name comes first, then the others by size; and a scan for
    [util] stops after the first file that defines it. *)
Example scan_order_by_affinity :
  scan_order Demo.project Demo.lazy_engine (lit "PKG_B")
  = [Demo.file_pkg_b; Demo.file_pkg_a; Demo.file_main].
Proof. by vm_compute. Qed.

Example scan_stops_when_resolved :
  scan_order Demo.project Demo.lazy_engine (lit "util")
  = [Demo.file_pkg_a; Demo.file_pkg_b; Demo.file_main]
  ∧ elements
      (_indexed_files
         (state_of
            (_ensure_symbol_indexed Demo.project (lit "util")
               Demo.lazy_engine)))
    = [Demo.file_pkg_a].
Proof. split; by vm_compute. Qed.

(** ** The eager subset *)

(** What a pass of [_index_file] over a list leaves behind when it
    returns: the discovery state as it was, and as indexed files those
    there were and the files of the list that exist. *)
Lemma index_each_returns w paths s s' :
  index_each w paths s = Return () s' →
  _all_files s' = _all_files s
  ∧ _file_sizes s' = _file_sizes s
  ∧ _total_bytes s' = _total_bytes s
  ∧ max_eager_files s' = max_eager_files s
  ∧ max_eager_bytes s' = max_eager_bytes s
  ∧ ∀ p, p ∈ _indexed_files s'
         ↔ p ∈ _indexed_files s ∨ (p ∈ paths ∧ exists_ w p = true).
Proof.
  revert s. induction paths as [|q paths IH]; intros s.
  { intros [= <-]. repeat split; try done.
    - by left.
    - intros [?|[?%elem_of_nil _]]; done. }
  simpl.
  destruct (index_file_cases w q s)
    as [[Hq Hwhy]
       |[(x & Hq & _)
        |(node & defs & refs & Hq & Hnew & Hexists & _)]];
    rewrite Hq; simpl; [|done|].
  - intros (-> & -> & -> & -> & -> & Hin)%IH. repeat split; try done.
    + intros [?|[??]]%Hin; [by left|]. right. split; [by right|done].
    + intros [?|[[->|?]%elem_of_cons Hex]]; apply Hin.
      * by left.
      * left. destruct Hwhy; [done|congruence].
      * by right.
  - intros (-> & -> & -> & -> & -> & Hin)%IH. repeat split; try done.
    + intros [[?| ->%elem_of_singleton]%elem_of_union|[??]]%Hin.
      * by left.
      * right. split; [left|done].
      * right. split; [by right|done].
    + intros [?|[[->|?]%elem_of_cons Hex]]; apply Hin.
      * left. apply elem_of_union. by left.
      * left. apply elem_of_union. right. by apply elem_of_singleton.
      * by right.
Qed.

Lemma fold_insert_lookup (f : Path → Z) (paths : list Path)
    (m : gmap Path Z) (p : Path) :
  foldl (λ m q, <[q := f q]> m) m paths !! p
  = if decide (p ∈ paths) then Some (f p) else m !! p.
Proof.
  revert m. induction paths as [|q paths IH]; intros m; cbn [foldl].
  { case_decide as Hin; [by apply elem_of_nil in Hin|done]. }
  rewrite IH. destruct (decide (p ∈ paths)) as [Hin|Hout].
  - rewrite decide_True; [done|by right].
  - destruct (decide (p = q)) as [->|Hne].
    + rewrite lookup_insert_eq. rewrite decide_True; [done|left].
    + rewrite lookup_insert_ne by done. rewrite decide_False; [done|].
      by intros [?|?]%elem_of_cons.
Qed.

Lemma sizes_of_lookup w paths p :
  p ∈ paths → sizes_of w paths !! p = Some (default 0 (stat_size w p)).
Proof.
  intros Hp. unfold sizes_of.
  rewrite (fold_insert_lookup (λ q, default 0 (stat_size w q))).
  by rewrite decide_True.
Qed.

Lemma filter_none {A} (P : A → Prop) `{∀ x, Decision (P x)} (l : list A) :
  (∀ x, x ∈ l → ¬ P x) → filter P l = [].
Proof.
  induction l as [|x l IH]; intros Hl; [done|].
  rewrite filter_cons_False by (apply Hl; left).
  apply IH. intros y Hy. apply Hl. by right.
Qed.

(** Construction is discovery followed by one pass over the eager
    files. *)
Lemma init_pass w root max_files max_bytes :
  let s0 := _discover_files w (fresh root max_files max_bytes) in
  init w root max_files max_bytes = index_each w (eager_files s0) s0.
Proof.
  intros s0. unfold init, _initial_index. fold s0.
  destruct (_all_files s0) as [|p ps] eqn:Hfiles; [|done].
  simpl. unfold eager_files. rewrite Hfiles. simpl.
  destruct (_ && _); [done|]. unfold slice_to. by rewrite take_nil.
Qed.

(** C2, as the specification states it, fails: a swept path that does not
    exist is discovered, the project is within both budgets, and after
    construction the path is not indexed. *)
Lemma discovered_file_left_unindexed :
  ∃ s, init Demo.dangling Demo.root 200 5000000 = Return () s
       ∧ len (_all_files s) ≤ max_eager_files s
       ∧ _total_bytes s ≤ max_eager_bytes s
       ∧ Demo.file_ghost ∈ _all_files s
       ∧ Demo.file_ghost ∉ _indexed_files s.
Proof.
  eexists. split; [vm_compute; reflexivity|].
  split; [by vm_compute|]. split; [by vm_compute|]. split.
  - apply list_elem_of_singleton. reflexivity.
  - vm_compute. intros H. discriminate H.
Qed.

(** C2, amended. Let the engine be constructed, with a [max_eager_files]
    that is not negative, over [F] discovered files of [B] bytes in all.
    If [F ≤ max_eager_files] and [B ≤ max_eager_bytes], the files indexed
    after construction are the discovered files that exist on disk; when
    all of them exist, no later query for a symbol indexes anything, in
    whatever world it runs. Otherwise the files indexed are those of the
    first [max_eager_files] files in ascending order of size that exist on
    disk. The order is that of the stable sort of the discovered files by
    recorded size, a size that cannot be read counting as 0. *)
Theorem eager_subset (w : World) (root : Path) (max_files max_bytes : Z)
    (s : LSPEngine) :
  init w root max_files max_bytes = Return () s →
  0 ≤ max_files →
  let files_sorted := sorted int_leb (size_of s) (_all_files s) in
  _all_files s = rglob_py w root
  ∧ (∀ p, p ∈ _all_files s → size_of s p = default 0 (stat_size w p))
  ∧ _total_bytes s
    = foldl (λ t p, t + default 0 (stat_size w p)) 0 (rglob_py w root)
  ∧ files_sorted ≡ₚ _all_files s
  ∧ StronglySorted (λ a b, size_of s a ≤ size_of s b) files_sorted
  ∧ (len (_all_files s) ≤ max_files ∧ _total_bytes s ≤ max_bytes →
     (∀ p, p ∈ _indexed_files s
           ↔ p ∈ _all_files s ∧ exists_ w p = true)
     ∧ ((∀ p, p ∈ _all_files s → exists_ w p = true) →
        ∀ w' symbol, _ensure_symbol_indexed w' symbol s = Return () s))
  ∧ (¬ (len (_all_files s) ≤ max_files ∧ _total_bytes s ≤ max_bytes) →
     ∀ p, p ∈ _indexed_files s
          ↔ p ∈ take (Z.to_nat max_files) files_sorted
            ∧ exists_ w p = true).
Proof.
  intros Hinit Hmax files_sorted.
  rewrite init_pass in Hinit. simpl in Hinit.
  set (s0 := _discover_files w (fresh root max_files max_bytes)) in *.
  destruct (index_each_returns _ _ _ _ Hinit)
    as (Hfiles & Hsizes & Htotal & Hmf & Hmb & Hindexed).
  assert (size_of s = size_of s0) as Hsize.
  { unfold size_of. by rewrite Hsizes. }
  assert (_all_files s0 = rglob_py w root
          ∧ _file_sizes s0 = sizes_of w (rglob_py w root)
          ∧ _total_bytes s0
            = foldl (λ t p, t + default 0 (stat_size w p)) 0 (rglob_py w root)
          ∧ _indexed_files s0 = ∅
          ∧ max_eager_files s0 = max_files
          ∧ max_eager_bytes s0 = max_bytes)
    as (Hfiles0 & Hsizes0 & Htotal0 & Hindexed0 & Hmf0 & Hmb0).
  { unfold s0. rewrite discover_files_spec. by repeat split. }
  assert (∀ p, p ∈ _indexed_files s
               ↔ p ∈ eager_files s0 ∧ exists_ w p = true) as Heager.
  { intros p. rewrite Hindexed, Hindexed0. split.
    - intros [?%elem_of_empty|?]; done.
    - by right. }
  split; [by rewrite Hfiles|]. split.
  { intros p Hp. rewrite Hsize. unfold size_of.
    rewrite Hsizes0, sizes_of_lookup; [done|].
    by rewrite <- Hfiles0, <- Hfiles. }
  split; [by rewrite Htotal|]. split; [apply sorted_perm|]. split.
  { eapply StronglySorted_weaken;
      [|exact (sorted_ascending int_leb (size_of s) int_leb_total
                 int_leb_trans (_all_files s))].
    intros a b Hab. unfold key_le, int_leb in Hab. lia. }
  unfold files_sorted. rewrite Hsize, Hfiles, Htotal.
  unfold eager_files in Heager. rewrite Hmf0, Hmb0 in Heager.
  split.
  - intros [HF HB].
    rewrite (proj2 (andb_true_iff _ _)) in Heager by (split; lia).
    assert (∀ p, p ∈ _indexed_files s
                 ↔ p ∈ _all_files s0 ∧ exists_ w p = true) as Hall.
    { intros p. rewrite Heager. by rewrite elem_of_sorted. }
    split; [exact Hall|].
    intros Hexist w' symbol. unfold _ensure_symbol_indexed.
    destruct (resolves s symbol); [done|].
    unfold remaining. rewrite Hfiles, filter_none; [done|].
    intros p Hp Hnot. apply Hnot, Hall. auto.
  - intros Hover.
    destruct ((len (_all_files s0) <=? max_files)
              && (_total_bytes s0 <=? max_bytes)) eqn:Hcond.
    { apply andb_true_iff in Hcond. lia. }
    intros p. rewrite Heager. by rewrite slice_to_nonneg.
Qed.

Lemma eager_subset_witness :
  init Demo.project Demo.root 10 10000 = Return () Demo.project_engine
  ∧ 0 ≤ 10
  ∧ _all_files Demo.project_engine
    = [Demo.file_main; Demo.file_pkg_a; Demo.file_pkg_b]
  ∧ (∀ p, p ∈ _indexed_files Demo.project_engine
          ↔ p ∈ _all_files Demo.project_engine
            ∧ exists_ Demo.project p = true).
Proof.
  assert (init Demo.project Demo.root 10 10000
          = Return () Demo.project_engine) as Hinit.
  { apply init_returns_state. vm_compute. eauto. }
  split; [exact Hinit|]. split; [lia|]. split; [by vm_compute|].
  destruct (eager_subset Demo.project Demo.root 10 10000
              Demo.project_engine Hinit ltac:(lia))
    as (_ & _ & _ & _ & _ & Hwithin & _).
  apply Hwithin. split; by vm_compute.
Defined.

(** ** Qualified names across files *)






(** ** Resolving a simple name *)















